(** * A shallow embedding of [pkg/model/dbAudit.go]

    The audit-trail store of the DIA oracle: storage trees and daily
    trees kept in InfluxDB, the reverse pool index kept in Redis, and the
    batched writer in front of InfluxDB.

    Conventions of the embedding
    - Go's [int], [int64] and [uint64] are [Z] with the wrap-around written
      out ([wrap64]); [int] is taken to be 64 bits wide.
    - a Go function returning [(v, err)] returns a pair whose second
      component is an [option error] ([None] is [nil]);
    - a run-time panic (failed type assertion, nil dereference, index out
      of range) or [log.Fatal] is the outcome [Crash];
    - the receiver [db *DBAudit] is passed and returned explicitly;
    - each reading of [time.Now()] is an argument named after the variable
      that receives it. *)

From Stdlib Require Import ZArith Lia Ascii String Sorted.
From stdpp Require Import gmap strings list fin_maps.

Local Open Scope string_scope.
Local Open Scope Z_scope.

(** ** Machine integers *)

Module Int64.

Definition modulus : Z := 2 ^ 64.
Definition min_signed : Z := - 2 ^ 63.
Definition max_signed : Z := 2 ^ 63 - 1.
Definition max_unsigned : Z := 2 ^ 64 - 1.

(** Two's complement reduction of a mathematical integer to [int64]. *)
Definition wrap64 (z : Z) : Z :=
  (z + 2 ^ 63) mod 2 ^ 64 - 2 ^ 63.

Definition in_int64 (z : Z) : Prop := min_signed <= z <= max_signed.
Definition in_uint64 (z : Z) : Prop := 0 <= z <= max_unsigned.

End Int64.
Export Int64.

(** ** Errors

    Go's [error] values that the file creates or passes on.  [redis_Nil]
    is the sentinel [redis.Nil]; [errorString] is what [errors.New]
    builds; [NumError] is [*strconv.NumError]; [external] is an error
    handed back by a library (InfluxDB client, Redis client, merkletree,
    encoding/json) with its message. *)

Inductive numErrKind := ErrSyntax | ErrRange.

#[global] Instance numErrKind_eq_dec : EqDecision numErrKind.
Proof. solve_decision. Defined.

Inductive error :=
| errorString (msg : string)
| redis_Nil
| NumError (func num : string) (kind : numErrKind)
| external (origin msg : string).

#[global] Instance error_eq_dec : EqDecision error.
Proof. solve_decision. Defined.

(** Outcome of a call: it returns, or the process panics / exits. *)
Inductive outcome (A : Type) :=
| Ret (a : A)
| Crash.
Arguments Ret {A} a.
Arguments Crash {A}.

#[global] Instance outcome_ret : MRet outcome := fun A a => Ret a.
#[global] Instance outcome_bind : MBind outcome := fun A B k m =>
  match m with
  | Ret a => k a
  | Crash => Crash
  end.

(** ** strconv *)

Module strconv.

Definition digit_char (d : Z) : ascii :=
  ascii_of_nat (48 + Z.to_nat d).

(** [formatBits] for base 10: the digits are produced from the least
    significant one and pushed in front of [acc].  A [uint64] has at
    most 20 decimal digits, which bounds the loop. *)
Fixpoint formatBits (fuel : nat) (u : Z) (acc : string) : string :=
  match fuel with
  | O => acc
  | S fuel' =>
      if u <? 10 then String (digit_char u) acc
      else formatBits fuel' (u / 10) (String (digit_char (u mod 10)) acc)
  end.

Definition FormatUint (u : Z) : string := formatBits 20 u "".

(** [strconv.FormatInt(i, 10)]: a minus sign and the magnitude. *)
Definition FormatInt (i : Z) : string :=
  if i <? 0 then String "-" (FormatUint (- i)) else FormatUint i.

(** [strconv.Itoa(i)] is [FormatInt(int64(i), 10)]. *)
Definition Itoa (i : Z) : string := FormatInt i.

(** Value of a byte as a base-10 digit, if it is one. *)
Definition digit_val (c : ascii) : option Z :=
  let n := Z.of_nat (nat_of_ascii c) in
  if (48 <=? n) && (n <=? 57) then Some (n - 48) else None.

Inductive uresult :=
| UOk (n : Z)
| USyntax
| URange.

(** The digit loop of [ParseUint(s, 10, 64)]. *)
Fixpoint parseDigits (s : string) (n : Z) : uresult :=
  match s with
  | EmptyString => UOk n
  | String c rest =>
      match digit_val c with
      | None => USyntax
      | Some d =>
          if (max_unsigned / 10 + 1) <=? n then URange
          else
            let n1 := n * 10 + d in
            if max_unsigned <? n1 then URange
            else parseDigits rest n1
      end
  end.

Definition ParseUint (s : string) : uresult :=
  match s with
  | EmptyString => USyntax
  | _ => parseDigits s 0
  end.

(** [strconv.ParseInt(s, 10, 64)]. *)
Definition ParseInt (s0 : string) : Z * option error :=
  match s0 with
  | EmptyString => (0, Some (NumError "ParseInt" s0 ErrSyntax))
  | String c rest =>
      let '(neg, s) :=
        if Ascii.eqb c "+" then (false, rest)
        else if Ascii.eqb c "-" then (true, rest)
        else (false, s0) in
      match ParseUint s with
      | USyntax => (0, Some (NumError "ParseInt" s0 ErrSyntax))
      | URange =>
          if neg then (min_signed, Some (NumError "ParseInt" s0 ErrRange))
          else (max_signed, Some (NumError "ParseInt" s0 ErrRange))
      | UOk un =>
          let cutoff := 2 ^ 63 in
          if negb neg && (cutoff <=? un)
          then (cutoff - 1, Some (NumError "ParseInt" s0 ErrRange))
          else if neg && (cutoff <? un)
          then (- cutoff, Some (NumError "ParseInt" s0 ErrRange))
          else (if neg then - un else un, None)
      end
  end.

End strconv.


(** ** time

    A [time.Time] is identified with the instant it denotes: the number
    of nanoseconds since the Unix epoch, as an unbounded integer (the
    wall-clock location and the monotonic reading are left out; readings
    are taken in UTC). *)

Module time.

Definition Time := Z.

Definition Second : Z := 1000000000.

(** [time.Time{}]: January 1 of year 1, 00:00:00 UTC. *)
Definition zero : Time := -62135596800 * Second.

Definition Before (t u : Time) : bool := t <? u.

(** [t.UnixNano()]: the instant, reduced to [int64]. *)
Definition UnixNano (t : Time) : Z := wrap64 t.



(** Calendar date (proleptic Gregorian) of a day count since the epoch. *)
Definition civil_of_days (days : Z) : Z * Z * Z :=
  let z := days + 719468 in
  let era := z / 146097 in
  let doe := z - era * 146097 in
  let yoe := (doe - doe / 1460 + doe / 36524 - doe / 146096) / 365 in
  let doy := doe - (365 * yoe + yoe / 4 - yoe / 100) in
  let mp := (5 * doy + 2) / 153 in
  let d := doy - (153 * mp + 2) / 5 + 1 in
  let m := if mp <? 10 then mp + 3 else mp - 9 in
  let y := yoe + era * 400 + (if m <=? 2 then 1 else 0) in
  (y, m, d).

Fixpoint zeros (n : nat) : string :=
  match n with
  | O => ""
  | S n' => String "0" (zeros n')
  end.

(** [appendInt(b, x, width)]: decimal, zero-padded to [width]. *)
Definition appendInt (x : Z) (width : nat) : string :=
  let digits := strconv.FormatUint (Z.abs x) in
  let body := zeros (width - String.length digits) +:+ digits in
  if x <? 0 then String "-" body else body.

Fixpoint trim_zeros_rev (s : list ascii) : list ascii :=
  match s with
  | c :: rest => if Ascii.eqb c "0" then trim_zeros_rev rest else s
  | [] => []
  end.

(** The [.999999999] verb: fraction of a second without trailing
    zeros, nothing at all when the fraction is zero. *)
Definition formatNano (nsec : Z) : string :=
  let digits := list_ascii_of_string (appendInt nsec 9) in
  match rev (trim_zeros_rev (rev digits)) with
  | [] => ""
  | ds => String "." (string_of_list_ascii ds)
  end.

(** [t.String()] of a time in UTC without monotonic reading:
    layout [2006-01-02 15:04:05.999999999 -0700 MST]. *)
Definition String_ (t : Time) : string :=
  let sec := t / Second in
  let nsec := t mod Second in
  let '(y, m, d) := civil_of_days (sec / 86400) in
  let sod := sec mod 86400 in
  appendInt y 4 +:+ "-" +:+ appendInt m 2 +:+ "-" +:+ appendInt d 2
    +:+ " " +:+ appendInt (sod / 3600) 2
    +:+ ":" +:+ appendInt (sod mod 3600 / 60) 2
    +:+ ":" +:+ appendInt (sod mod 60) 2
    +:+ formatNano nsec +:+ " +0000 UTC".

End time.

(** ** merkletree (the hashing library), as far as this file looks into it *)

Module merkletree.

(** [merkletree.StorageBucket]: this file reads [Timestamp] and writes
    [ID]; [Payload] stands for the remaining fields, which it never
    touches. *)
Record StorageBucket := {
  ID : string;
  Timestamp : time.Time;
  Payload : string
}.

(** [merkletree.Content] is an interface; [StorageBucket] is the
    implementation this file asserts on. *)
Inductive Content :=
| CStorageBucket (b : StorageBucket)
| COther (descr : string).

Record Node := { C : Content }.

Record MerkleTree := {
  merkleRoot : string;
  Leafs : list Node
}.

(** [merkletree.MerkleTree{}] *)
Definition zero : MerkleTree := {| merkleRoot := ""; Leafs := [] |}.

End merkletree.
Export merkletree.

(** ** InfluxDB, seen through the client *)

Module influx.

(** A point of a batch, and a row of a measurement. *)
Record Point := {
  name : string;
  tags : gmap string string;
  fields : gmap string string;
  ptime : Z
}.

(** The server a client talks to: its rows, and whether it currently
    fails every request (with which error). *)
Record Client := {
  fault : option error;
  points : list Point
}.

Definition same_series (p q : Point) : bool :=
  bool_decide (name p = name q) && bool_decide (tags p = tags q)
  && (ptime p =? ptime q).

(** A point with the measurement, tag set and time of a stored row
    replaces it, the fields being merged; otherwise it is a new row. *)
Fixpoint upsert (p : Point) (rows : list Point) : list Point :=
  match rows with
  | [] => [p]
  | q :: rest =>
      if same_series p q
      then {| name := name q; tags := tags q;
              fields := fields p ∪ fields q; ptime := ptime q |} :: rest
      else q :: upsert p rest
  end.

Definition write_all (batch rows : list Point) : list Point :=
  foldl (fun acc p => upsert p acc) rows batch.

(** [client.Write(bp)] *)
Definition Write (clnt : option Client) (bp : option (list Point))
  : outcome (option Client * option error) :=
  match clnt, bp with
  | Some srv, Some batch =>
      match fault srv with
      | Some e => Ret (clnt, Some e)
      | None =>
          Ret (Some {| fault := None;
                       points := write_all batch (points srv) |}, None)
      end
  | _, _ => Crash
  end.

(** The queries of this file, after parsing.  [TimeIs lit] is the
    condition [time=lit] with [lit] pasted into the query text. *)
Inductive cond :=
| TagEq (k v : string)
| TimeGt (t : Z)
| TimeLe (t : Z)
| TimeIs (lit : string).

Record Query := {
  from : string;
  where_ : list cond;
  descending : bool;
  limit : option nat
}.

(** An integer literal in a time condition counts nanoseconds; other
    literals the file never produces on purpose, and the parser of the
    model rejects them. *)
Definition time_literal (lit : string) : option Z :=
  match strconv.ParseInt lit with
  | (n, None) => Some n
  | _ => None
  end.

Definition well_formed (c : cond) : bool :=
  match c with
  | TimeIs lit => bool_decide (is_Some (time_literal lit))
  | _ => true
  end.

Definition holds (c : cond) (p : Point) : bool :=
  match c with
  | TagEq k v => bool_decide (tags p !! k = Some v)
  | TimeGt t => t <? ptime p
  | TimeLe t => ptime p <=? t
  | TimeIs lit =>
      match time_literal lit with
      | Some t => ptime p =? t
      | None => false
      end
  end.

Definition matches (q : Query) (p : Point) : bool :=
  bool_decide (name p = from q) && forallb (fun c => holds c p) (where_ q).

Fixpoint insert_by_time (p : Point) (rows : list Point) : list Point :=
  match rows with
  | [] => [p]
  | r :: rest =>
      if ptime p <? ptime r then p :: r :: rest
      else r :: insert_by_time p rest
  end.

(** Rows in ascending time order (rows of equal time keep their order). *)
Definition sort_by_time (rows : list Point) : list Point :=
  foldr insert_by_time [] rows.

Definition apply_limit (l : option nat) (rows : list Point) : list Point :=
  match l with
  | Some n => take n rows
  | None => rows
  end.

Definition select (q : Query) (rows : list Point) : list Point :=
  let hits := sort_by_time (filter (fun p => matches q p = true) rows) in
  apply_limit (limit q) (if descending q then rev hits else hits).

(** One series of a result; a row keeps all its columns and is read by
    column name. *)
Record Row := { Values : list Point }.
Record Result := { Series : list Row }.

(** [client.Query] followed by [response.Error()] and
    [response.Results]: a statement that selects nothing has no series. *)
Definition Query_ (clnt : option Client) (q : Query)
  : outcome (list Result * option error) :=
  match clnt with
  | None => Crash
  | Some srv =>
      match fault srv with
      | Some e => Ret ([], Some e)
      | None =>
          if forallb well_formed (where_ q) then
            match select q (points srv) with
            | [] => Ret ([ {| Series := [] |} ], None)
            | rows => Ret ([ {| Series := [ {| Values := rows |} ] |} ], None)
            end
          else Ret ([], Some (external "influxdb" "error parsing query"))
      end
  end.

(** [val[i].(string)] on a tag or field column: a null column fails the
    type assertion. *)
Definition column (p : Point) (k : string) : outcome string :=
  match fields p !! k with
  | Some v => Ret v
  | None =>
      match tags p !! k with
      | Some v => Ret v
      | None => Crash
      end
  end.

End influx.

(** ** Redis hashes, seen through the client *)

Module redis.

Record Client := {
  fault : option error;
  hashes : gmap string (gmap string string)
}.

(** [HSet(ctx, key, m)] for a Go map [m] of integers: every field of
    [m] is set to the decimal form of its value.  The command needs at
    least one field. *)
Definition HSet (clnt : Client) (key : string) (m : gmap string Z)
  : Client * option error :=
  match fault clnt with
  | Some e => (clnt, Some e)
  | None =>
      if bool_decide (m = ∅)
      then (clnt, Some (external "redis"
              "ERR wrong number of arguments for 'hset' command"))
      else
        let old := default ∅ (hashes clnt !! key) in
        ({| fault := None;
            hashes := <[key := (strconv.FormatInt <$> m) ∪ old]> (hashes clnt) |},
         None)
  end.

(** [HGet(ctx, key, field).Result()] *)
Definition HGet (clnt : Client) (key field : string) : string * option error :=
  match fault clnt with
  | Some e => ("", Some e)
  | None =>
      match hashes clnt !! key ≫= (.!! field) with
      | Some v => (v, None)
      | None => ("", Some redis_Nil)
      end
  end.

End redis.

(** ** What the file takes from elsewhere

    The hashing library, the JSON codec of its trees, the validation
    done by the InfluxDB client when a point is built (a point needs a
    field, a time in range and a key of bounded length) and the constant
    [influxMaxPointsInBatch], which the package declares in another file. *)

Class Externals := {
  NewTree : list Content -> MerkleTree * option error;
  DataInStorageTree : list Byte.byte -> MerkleTree -> bool * option error;
  json_Marshal_tree : MerkleTree -> string * option error;
  json_Unmarshal_tree : string -> MerkleTree * option error;
  json_Marshal_strings : list string -> string * option error;
  NewPoint_valid :
    string -> gmap string string -> gmap string string -> time.Time -> bool;
  influxMaxPointsInBatch : Z
}.

(** ** The store *)

Definition auditDBName : string := "audit".
Definition influxDBStorageTable : string := "storage".
Definition influxDBMerkleTable : string := "merkle".

Record DBAudit := {
  redisClient : option redis.Client;
  influxClient : option influx.Client;
  influxBatchPoints : option (list influx.Point);
  influxPointsInBatch : Z
}.

Definition with_redis (db : DBAudit) (r : option redis.Client) : DBAudit :=
  {| redisClient := r; influxClient := influxClient db;
     influxBatchPoints := influxBatchPoints db;
     influxPointsInBatch := influxPointsInBatch db |}.

Definition with_influx (db : DBAudit) (c : option influx.Client) : DBAudit :=
  {| redisClient := redisClient db; influxClient := c;
     influxBatchPoints := influxBatchPoints db;
     influxPointsInBatch := influxPointsInBatch db |}.

Definition with_batch (db : DBAudit) (bp : option (list influx.Point)) : DBAudit :=
  {| redisClient := redisClient db; influxClient := influxClient db;
     influxBatchPoints := bp;
     influxPointsInBatch := influxPointsInBatch db |}.

Definition with_count (db : DBAudit) (n : Z) : DBAudit :=
  {| redisClient := redisClient db; influxClient := influxClient db;
     influxBatchPoints := influxBatchPoints db;
     influxPointsInBatch := n |}.

Definition getKeyPoolIDs (topic : string) : string :=
  "HashedPoolsMap_" +:+ topic.

(** [queryAuditDB]: the error of the call or of the response, else the
    results. *)
Definition queryAuditDB (clnt : option influx.Client) (cmd : influx.Query)
  : outcome (list influx.Result * option error) :=
  influx.Query_ clnt cmd.

(** [res[0]] *)
Definition first_result (res : list influx.Result) : outcome influx.Result :=
  match res with
  | r :: _ => Ret r
  | [] => Crash
  end.

(** [clientInfluxdb.NewBatchPoints] with precision ["ns"] always succeeds. *)
Definition createAuditBatchInflux : option (list influx.Point) * option error :=
  (Some [], None).

(** [NewAuditStoreWithOptions]: the store as it starts, given the
    servers the two addresses lead to ([r], [ci]); a client that is not
    asked for stays nil, and so does the batch without InfluxDB. *)
Definition NewAuditStoreWithOptions (withRedis withInflux : bool)
    (r : redis.Client) (ci : influx.Client) : DBAudit :=
  {| redisClient := if withRedis then Some r else None;
     influxClient := if withInflux then Some ci else None;
     influxBatchPoints := if withInflux then createAuditBatchInflux.1 else None;
     influxPointsInBatch := 0 |}.

Definition NewAuditStore := NewAuditStoreWithOptions true true.

Section dbAudit.
Context `{Ext : Externals}.

(** [clientInfluxdb.NewPoint] *)
Definition NewPoint (name : string) (tags fields : gmap string string)
    (t : time.Time) : influx.Point * option error :=
  let pt := {| influx.name := name; influx.tags := tags;
               influx.fields := fields; influx.ptime := time.UnixNano t |} in
  if NewPoint_valid name tags fields t then (pt, None)
  else (pt, Some (external "influxdb" "invalid point")).

Definition WriteAuditBatchInflux (db : DBAudit)
  : outcome (DBAudit * option error) :=
  '(clnt, err) ← influx.Write (influxClient db) (influxBatchPoints db);
  let db := with_influx db clnt in
  match err with
  | Some _ =>
      let '(bp, _) := createAuditBatchInflux in
      Ret (with_batch db bp, err)
  | None => Ret (with_count db 0, err)
  end.

Definition FlushAuditBatch (db : DBAudit) : outcome (DBAudit * option error) :=
  match influxBatchPoints db with
  | Some _ => WriteAuditBatchInflux db
  | None => Ret (db, None)
  end.

Definition addAuditPoint (db : DBAudit) (pt : influx.Point) : outcome DBAudit :=
  match influxBatchPoints db with
  | None => Crash
  | Some bp =>
      let db := with_batch db (Some (bp ++ [pt])%list) in
      let db := with_count db (wrap64 (influxPointsInBatch db + 1)) in
      if influxMaxPointsInBatch <=? influxPointsInBatch db
      then '(db, _) ← WriteAuditBatchInflux db; Ret db
      else Ret db
  end.

(** *** Storage table *)

(** The loop of [SetStorageTreeInflux] over [tree.Leafs], from index
    [i] on: the buckets with their identifiers, and the running
    [firstDate] and [lastDate]. *)
Fixpoint bucketsLoop (influxTimeID : time.Time) (leafs : list Node) (i : nat)
    (bucketsWithID : list Content) (firstDate lastDate : time.Time)
  : outcome (list Content * time.Time * time.Time) :=
  match leafs with
  | [] => Ret (bucketsWithID, firstDate, lastDate)
  | leaf :: rest =>
      match C leaf with
      | CStorageBucket bucket =>
          let bucket :=
            {| ID := strconv.FormatInt (time.UnixNano influxTimeID)
                     +:+ "." +:+ strconv.FormatInt (Z.of_nat i);
               Timestamp := Timestamp bucket;
               Payload := Payload bucket |} in
          let bucketsWithID := (bucketsWithID ++ [CStorageBucket bucket])%list in
          let lastDate :=
            if time.Before lastDate (Timestamp bucket)
            then Timestamp bucket else lastDate in
          let firstDate :=
            if time.Before (Timestamp bucket) firstDate
            then Timestamp bucket else firstDate in
          bucketsLoop influxTimeID rest (S i) bucketsWithID firstDate lastDate
      | COther _ => Crash
      end
  end.

Definition storageTags (topic : string) (firstDate lastDate : time.Time)
  : gmap string string :=
  {[ "topic" := topic;
     "firstDate" := strconv.FormatInt (time.UnixNano firstDate);
     "lastDate" := strconv.FormatInt (time.UnixNano lastDate) ]}.

(** The rest of [SetStorageTreeInflux], after the loop. *)
Definition storeBuckets (db : DBAudit) (topic : string)
    (influxTimeID : time.Time) (bucketsWithID : list Content)
    (firstDate lastDate : time.Time) : outcome (DBAudit * option error) :=
  let '(treeWithID, err) := NewTree bucketsWithID in
  match err with
  | Some e => Ret (db, Some e)
  | None =>
      let '(marshTree, _) := json_Marshal_tree treeWithID in
      let tags := storageTags topic firstDate lastDate in
      let fields : gmap string string := {[ "value" := marshTree ]} in
      let '(pt, err) := NewPoint influxDBStorageTable tags fields influxTimeID in
      db ← match err with
           | Some _ => Ret db
           | None => addAuditPoint db pt
           end;
      WriteAuditBatchInflux db
  end.

(** [influxTimeID] and [firstDate0] are the two readings of the clock,
    in this order. *)
Definition SetStorageTreeInflux (db : DBAudit) (tree : MerkleTree)
    (topic : string) (influxTimeID firstDate0 : time.Time)
  : outcome (DBAudit * option error) :=
  '(bucketsWithID, firstDate, lastDate) ←
    bucketsLoop influxTimeID (Leafs tree) 0 [] firstDate0 time.zero;
  storeBuckets db topic influxTimeID bucketsWithID firstDate lastDate.

(** [SELECT time, value FROM (SELECT * FROM storage WHERE topic='..'
    and time > ..) ORDER BY ASC LIMIT 1] *)
Definition storageAfterQuery (topic : string) (timeLower : time.Time)
  : influx.Query :=
  {| influx.from := influxDBStorageTable;
     influx.where_ := [influx.TagEq "topic" topic;
                       influx.TimeGt (time.UnixNano timeLower)];
     influx.descending := false;
     influx.limit := Some 1%nat |}.

Definition GetStorageTreeInflux (db : DBAudit) (topic : string)
    (timeLower : time.Time)
  : outcome (MerkleTree * time.Time * option error) :=
  '(res, err) ← queryAuditDB (influxClient db) (storageAfterQuery topic timeLower);
  match err with
  | Some e => Ret (merkletree.zero, time.zero, Some e)
  | None =>
      r ← first_result res;
      match influx.Series r with
      | row :: _ =>
          match influx.Values row with
          | val :: _ =>
              value ← influx.column val "value";
              let '(retval, err) := json_Unmarshal_tree value in
              let timestamp : time.Time := influx.ptime val in
              Ret (retval, timestamp, err)
          | [] => Ret (merkletree.zero, time.zero, None)
          end
      | [] => Ret (merkletree.zero, time.zero, None)
      end
  end.

(** [SELECT value FROM storage WHERE topic='..' and time=ID] *)
Definition storageByIDQuery (topic ID : string) : influx.Query :=
  {| influx.from := influxDBStorageTable;
     influx.where_ := [influx.TagEq "topic" topic; influx.TimeIs ID];
     influx.descending := false;
     influx.limit := None |}.

Definition GetStorageTreeByID (db : DBAudit) (topic ID : string)
  : outcome (MerkleTree * option error) :=
  '(res, err) ← queryAuditDB (influxClient db) (storageByIDQuery topic ID);
  match err with
  | Some e => Ret (merkletree.zero, Some e)
  | None =>
      r ← first_result res;
      match influx.Series r with
      | row :: _ =>
          match influx.Values row with
          | val :: _ =>
              value ← influx.column val "value";
              Ret (json_Unmarshal_tree value)
          | [] => Ret (merkletree.zero, Some (errorString "empty response"))
          end
      | [] => Ret (merkletree.zero, Some (errorString "empty response"))
      end
  end.

(** [SELECT * FROM storage WHERE topic='..' ORDER BY DESC LIMIT 1] *)
Definition storageLastQuery (topic : string) : influx.Query :=
  {| influx.from := influxDBStorageTable;
     influx.where_ := [influx.TagEq "topic" topic];
     influx.descending := true;
     influx.limit := Some 1%nat |}.

Definition GetLastID (db : DBAudit) (topic : string) (now : time.Time)
  : outcome (string * option error) :=
  '(res, err) ← queryAuditDB (influxClient db) (storageLastQuery topic);
  match err with
  | Some e => Ret ("0", Some e)
  | None =>
      r ← first_result res;
      match influx.Series r with
      | [] => Ret (strconv.FormatInt (time.UnixNano now), None)
      | row :: _ =>
          match influx.Values row with
          | val :: _ =>
              let tstamp : time.Time := influx.ptime val in
              Ret (strconv.FormatInt (time.UnixNano tstamp), None)
          | [] => Ret ("0", Some (errorString "empty response"))
          end
      end
  end.

(** *** Reverse pool index *)

(** The Go map built by the loop of [SetPoolID]. *)
Definition poolMap_of (children : list string) (ID : Z) : gmap string Z :=
  foldl (fun poolMap num => <[num := ID]> poolMap) ∅ children.

Definition SetPoolID (db : DBAudit) (topic : string) (children : list string)
    (ID : Z) : outcome (DBAudit * option error) :=
  match redisClient db with
  | None => Crash
  | Some clnt =>
      let poolMap := poolMap_of children ID in
      let key := getKeyPoolIDs topic in
      let '(clnt, err) := redis.HSet clnt key poolMap in
      let db := with_redis db (Some clnt) in
      match err with
      | Some e => Ret (db, Some e)
      | None => Ret (db, None)
      end
  end.

Definition no_entry_message (id topic : string) : string :=
  "no redis entry for pool ID " +:+ id +:+ " with topic " +:+ topic
    +:+ " " +:+ String (ascii_of_nat 10) "".

Definition GetPoolsParentID (db : DBAudit) (id topic : string)
  : outcome (Z * option error) :=
  match redisClient db with
  | None => Crash
  | Some clnt =>
      let key := getKeyPoolIDs topic in
      let '(val, err) := redis.HGet clnt key id in
      match err with
      | Some e =>
          if bool_decide (e = redis_Nil)
          then Ret (-2, Some (errorString (no_entry_message id topic)))
          else Ret (-2, Some e)
      | None =>
          let '(ID, err) := strconv.ParseInt val in
          match err with
          | Some e => Ret (-2, Some e)
          | None => Ret (ID, None)
          end
      end
  end.

(** *** Merkle table *)

Definition dailyTags (topic level : string) (ID : Z) : gmap string string :=
  {[ "topic" := topic; "level" := level; "id" := strconv.Itoa ID ]}.

Definition dailyFields (marshTree childrenData : string)
    (lastTimestamp : time.Time) : gmap string string :=
  {[ "value" := marshTree;
     "children" := childrenData;
     "lastTimestamp" := strconv.Itoa (time.UnixNano lastTimestamp) ]}.

(** [now] is the reading of the clock that keys the point. *)
Definition SetDailyTreeInflux (db : DBAudit) (tree : MerkleTree) (ID : Z)
    (topic level : string) (children : list string)
    (lastTimestamp now : time.Time)
  : outcome (DBAudit * option error) :=
  let '(marshTree, err) := json_Marshal_tree tree in
  match err with
  | Some e => Ret (db, Some e)
  | None =>
      db ← (if bool_decide (level = "2")
            then '(db, _) ← SetPoolID db topic children ID; Ret db
            else Ret db);
      let '(childrenData, err) := json_Marshal_strings children in
      match err with
      | Some e => Ret (db, Some e)
      | None =>
          let tags := dailyTags topic level ID in
          let fields := dailyFields marshTree childrenData lastTimestamp in
          let '(pt, err) := NewPoint influxDBMerkleTable tags fields now in
          db ← match err with
               | Some _ => Ret db
               | None => addAuditPoint db pt
               end;
          WriteAuditBatchInflux db
      end
  end.



(** [SELECT * FROM merkle WHERE topic='..' and level='..' and id='..'];
    column 6 of its rows is [value]. *)
Definition dailyByIDQuery (topic level : string) (ID : Z) : influx.Query :=
  {| influx.from := influxDBMerkleTable;
     influx.where_ := [influx.TagEq "topic" topic;
                       influx.TagEq "level" level;
                       influx.TagEq "id" (strconv.Itoa ID)];
     influx.descending := false;
     influx.limit := None |}.

Definition GetDailyTreeByID (db : DBAudit) (topic level : string) (ID : Z)
  : outcome (MerkleTree * option error) :=
  '(res, err) ← queryAuditDB (influxClient db) (dailyByIDQuery topic level ID);
  match err with
  | Some e => Ret (merkletree.zero, Some e)
  | None =>
      r ← first_result res;
      match influx.Series r with
      | [] => Ret (merkletree.zero, None)
      | row :: _ =>
          match influx.Values row with
          | [] => Crash
          | val :: _ =>
              value ← influx.column val "value";
              Ret (json_Unmarshal_tree value)
          end
      end
  end.




(** *** Inclusion search *)

Definition FindStorageTree (db : DBAudit) (data : list Byte.byte)
    (timeData : time.Time) (topic : string)
  : outcome (string * option error) :=
  '(tree, timeTree, err) ← GetStorageTreeInflux db topic timeData;
  match err with
  | Some e => Ret ("", Some e)
  | None =>
      let '(isContained, err) := DataInStorageTree data tree in
      match err with
      | Some e => Ret ("", Some e)
      | None =>
          if isContained then Ret (time.String_ timeTree, None)
          else Ret ("", None)
      end
  end.

End dbAudit.

(** *** Range queries *)





(** *** The other constructors *)

Definition NewInfluxAuditStore := NewAuditStoreWithOptions false true.
Definition NewRedisAuditStore := NewAuditStoreWithOptions true false.
Definition NewAuditStoreWithoutInflux := NewAuditStoreWithOptions true false.
Definition NewAuditStoreWithoutRedis := NewAuditStoreWithOptions false true.

(** *** Reading a storage tree *)

Section read_storage_tree.
(** [ReadContent] of a storage bucket, from the hashing library: the
    data points of the bucket. *)
Variable ReadContent : StorageBucket -> list (list Byte.byte) * option error.

(** The loop of [ReadStorageTree], with the contents read so far. *)
Fixpoint readLeafs (leafs : list Node) (content : list (list (list Byte.byte)))
  : outcome (list (list (list Byte.byte)) * option error) :=
  match leafs with
  | [] => Ret (content, None)
  | leaf :: rest =>
      match C leaf with
      | CStorageBucket storageBucket =>
          let '(data, err) := ReadContent storageBucket in
          match err with
          | Some e => Ret (content, Some e)
          | None => readLeafs rest (content ++ [data])%list
          end
      | COther _ => Crash
      end
  end.

Definition ReadStorageTree (storageTree : MerkleTree)
  : outcome (list (list (list Byte.byte)) * option error) :=
  readLeafs (Leafs storageTree) [].

End read_storage_tree.

(** * Vocabulary of the statements *)

Definition is_bucket (leaf : Node) : bool :=
  match C leaf with
  | CStorageBucket _ => true
  | COther _ => false
  end.

(** The bucket of leaf [i] once sealed at [influxTimeID]. *)
Definition sealed (influxTimeID : time.Time) (i : nat) (leaf : Node) : Content :=
  match C leaf with
  | CStorageBucket b =>
      CStorageBucket
        {| ID := strconv.FormatInt (time.UnixNano influxTimeID)
                 +:+ "." +:+ strconv.FormatInt (Z.of_nat i);
           Timestamp := Timestamp b;
           Payload := Payload b |}
  | COther d => COther d
  end.

Definition leaf_time (leaf : Node) : time.Time :=
  match C leaf with
  | CStorageBucket b => Timestamp b
  | COther _ => time.zero
  end.

(** A point is stored in a list of rows when some row has its
    measurement, tag set and time, and carries its fields. *)
Definition stored (pt : influx.Point) (rows : list influx.Point) : Prop :=
  exists r, r ∈ rows
    /\ influx.name r = influx.name pt
    /\ influx.tags r = influx.tags pt
    /\ influx.ptime r = influx.ptime pt
    /\ influx.fields pt ⊆ influx.fields r.

(** The reverse pool index entry of a child under a topic, as Redis
    holds it. *)
Definition pool_entry (db : DBAudit) (topic child : string) : option string :=
  clnt ← redisClient db;
  redis.hashes clnt !! getKeyPoolIDs topic ≫= (.!! child).

(** Number of points in the current batch. *)
Definition batch_size (db : DBAudit) : Z :=
  match influxBatchPoints db with
  | Some bp => Z.of_nat (length bp)
  | None => 0
  end.

(** Strings made of decimal digits and minus signs only. *)
Fixpoint decimal_chars (s : string) : bool :=
  match s with
  | EmptyString => true
  | String c rest =>
      (Ascii.eqb c "-" || bool_decide (is_Some (strconv.digit_val c)))
      && decimal_chars rest
  end.

(** *** Vocabulary of the further properties *)


(** The row a point and a stored row of its series merge into. *)
Definition merged (p q : influx.Point) : influx.Point :=
  {| influx.name := influx.name q; influx.tags := influx.tags q;
     influx.fields := influx.fields p ∪ influx.fields q;
     influx.ptime := influx.ptime q |}.

Section vocabulary_batch.
Context `{Ext : Externals}.

(** The points [pts] appended and flushed one after the other, as the
    setters do. *)
Fixpoint appendEach (db : DBAudit) (pts : list influx.Point) : outcome DBAudit :=
  match pts with
  | [] => Ret db
  | pt :: rest =>
      d ← addAuditPoint db pt;
      '(d, _) ← WriteAuditBatchInflux d;
      appendEach d rest
  end.

End vocabulary_batch.

Section vocabulary_read.
Variable ReadContent : StorageBucket -> list (list Byte.byte) * option error.

(** The data points [ReadContent] finds in the bucket of a leaf, and
    whether it can read the leaf at all. *)
Definition content_of (leaf : Node) : list (list Byte.byte) :=
  match C leaf with
  | CStorageBucket b => (ReadContent b).1
  | COther _ => []
  end.

Definition readable (leaf : Node) : bool :=
  match C leaf with
  | CStorageBucket b => bool_decide ((ReadContent b).2 = None)
  | COther _ => false
  end.

End vocabulary_read.

(** * A test double for the external parts

    Stand-ins used where a statement is evaluated on concrete data: a
    tree builder that keeps the contents as leaves, a membership check
    that compares payloads, a JSON codec that knows a fixed table of
    documents, a point validation that asks for a field, and a small
    batch threshold. *)

#[global] Instance StorageBucket_eq_dec : EqDecision StorageBucket.
Proof. unfold time.Time. solve_decision. Defined.
#[global] Instance Content_eq_dec : EqDecision Content.
Proof. solve_decision. Defined.
#[global] Instance Node_eq_dec : EqDecision Node.
Proof. solve_decision. Defined.
#[global] Instance MerkleTree_eq_dec : EqDecision MerkleTree.
Proof. solve_decision. Defined.

Module Double.

Definition bucket (payload : string) (ts : time.Time) : Node :=
  {| C := CStorageBucket {| ID := ""; Timestamp := ts; Payload := payload |} |}.

(** 2021-03-04 10:00:00 UTC *)
Definition T0 : time.Time := 1614852000000000000.

Definition sampleTree : MerkleTree :=
  {| merkleRoot := "root";
     Leafs := [bucket "p0" (T0 - 3 * time.Second);
               bucket "p1" (T0 - 2 * time.Second);
               bucket "p2" (T0 - 1 * time.Second)] |}.

Definition sealedTree : MerkleTree :=
  {| merkleRoot := "root";
     Leafs := imap (fun i leaf => {| C := sealed T0 i leaf |}) (Leafs sampleTree) |}.

Definition NewTree (cs : list Content) : MerkleTree * option error :=
  match cs with
  | [] => (merkletree.zero,
           Some (external "merkletree" "error: cannot construct tree with no content"))
  | _ => ({| merkleRoot := "root"; Leafs := (fun c => {| C := c |}) <$> cs |}, None)
  end.

Definition DataInStorageTree (data : list Byte.byte) (tree : MerkleTree)
  : bool * option error :=
  (existsb (fun leaf =>
              match C leaf with
              | CStorageBucket b =>
                  bool_decide (Payload b = string_of_list_byte data)
              | COther _ => false
              end) (Leafs tree), None).

Definition documents : list (string * MerkleTree) :=
  [("{}", merkletree.zero); ("{sample}", sampleTree); ("{sealed}", sealedTree)].

Definition json_Marshal_tree (t : MerkleTree) : string * option error :=
  match find (fun d => bool_decide (d.2 = t)) documents with
  | Some d => (d.1, None)
  | None => ("", Some (external "json" "unsupported value"))
  end.

Definition json_Unmarshal_tree (s : string) : MerkleTree * option error :=
  match find (fun d => bool_decide (d.1 = s)) documents with
  | Some d => (d.2, None)
  | None => (merkletree.zero, Some (external "json" "invalid character"))
  end.

Definition json_Marshal_strings (l : list string) : string * option error :=
  ("[" +:+ String.concat "," l +:+ "]", None).

Definition NewPoint_valid (name : string) (tags fields : gmap string string)
    (t : time.Time) : bool :=
  bool_decide (fields ≠ ∅).

#[global] Instance externals : Externals :=
  Build_Externals NewTree DataInStorageTree json_Marshal_tree
    json_Unmarshal_tree json_Marshal_strings NewPoint_valid 3.

(** An InfluxDB that refuses every request, one that answers, a point,
    and a store whose counter is one below the threshold. *)
Definition refused : error := external "influxdb" "connection refused".

Definition down : influx.Client :=
  {| influx.fault := Some refused; influx.points := [] |}.

Definition up : influx.Client :=
  {| influx.fault := None; influx.points := [] |}.

Definition pt0 : influx.Point :=
  {| influx.name := "storage";
     influx.tags := {[ "topic" := "prices" ]};
     influx.fields := {[ "value" := "{sample}" ]};
     influx.ptime := T0 |}.

Definition pt1 : influx.Point :=
  {| influx.name := "storage";
     influx.tags := {[ "topic" := "prices" ]};
     influx.fields := {[ "value" := "{sealed}" ]};
     influx.ptime := T0 + 60 * time.Second |}.

Definition db_down : DBAudit :=
  {| redisClient := None; influxClient := Some down;
     influxBatchPoints := Some [pt0]; influxPointsInBatch := 2 |}.

(** The pooling scenario: three storage tree identifiers pooled under
    parent 500 for topic ["prices"]. *)
Definition children : list string := ["100.0"; "100.1"; "100.2"].

Definition redis_up : redis.Client :=
  {| redis.fault := None; redis.hashes := ∅ |}.

Definition redis_down : redis.Client :=
  {| redis.fault := Some (external "redis" "connection refused");
     redis.hashes := ∅ |}.

Definition db_fresh : DBAudit := NewAuditStore redis_up up.

Definition db_no_redis : DBAudit := NewAuditStore redis_down up.

(** A daily tree record of level 2 whose tree is the zero tree, and a
    store that holds it next to the storage tree [pt0]. *)
Definition daily0 : influx.Point :=
  {| influx.name := "merkle";
     influx.tags := {[ "topic" := "prices"; "level" := "2"; "id" := "500" ]};
     influx.fields := {[ "value" := "{}";
                         "children" := "[100.0,100.1,100.2]";
                         "lastTimestamp" := "1614852000000000000" ]};
     influx.ptime := T0 |}.

Definition db_store : DBAudit :=
  {| redisClient := Some redis_up;
     influxClient := Some {| influx.fault := None;
                             influx.points := [pt0; daily0] |};
     influxBatchPoints := Some []; influxPointsInBatch := 0 |}.

(** A tree whose only bucket is stamped five seconds after [T0]. *)
Definition aheadTree : MerkleTree :=
  {| merkleRoot := "root"; Leafs := [bucket "p0" (T0 + 5 * time.Second)] |}.

(** The same stand-ins with a client that accepts no point dated before
    the epoch. *)
Definition externals_picky : Externals :=
  Build_Externals NewTree DataInStorageTree json_Marshal_tree
    json_Unmarshal_tree json_Marshal_strings
    (fun _ _ _ t => bool_decide (0 <= t)) 3.

(** The data points of a bucket: its payload as one point; a bucket
    whose payload is ["bad"] cannot be read. *)
Definition ReadContent (b : StorageBucket) : list (list Byte.byte) * option error :=
  if bool_decide (Payload b = "bad")
  then ([], Some (external "merkletree" "unreadable bucket"))
  else ([list_byte_of_string (Payload b)], None).

End Double.

(** * Properties *)

(** ** Machine integers *)

Lemma wrap64_id z : in_int64 z -> wrap64 z = z.
Proof.
  unfold in_int64, min_signed, max_signed, wrap64. intros Hz.
  rewrite Z.mod_small; lia.
Qed.

Lemma wrap64_range z : in_int64 (wrap64 z).
Proof.
  unfold in_int64, min_signed, max_signed, wrap64.
  pose proof (Z.mod_pos_bound (z + 2 ^ 63) (2 ^ 64) ltac:(lia)). lia.
Qed.

(** *** Decimal printing and parsing are inverse on [int64] *)

Section strconv_facts.
Import strconv.

Lemma digit_cases d : 0 <= d < 10 ->
  d = 0 \/ d = 1 \/ d = 2 \/ d = 3 \/ d = 4 \/
  d = 5 \/ d = 6 \/ d = 7 \/ d = 8 \/ d = 9.
Proof. lia. Qed.

Ltac each_digit d H :=
  destruct (digit_cases d H) as
    [->|[->|[->|[->|[->|[->|[->|[->|[->| ->]]]]]]]]].

Lemma digit_val_char d : 0 <= d < 10 -> digit_val (digit_char d) = Some d.
Proof. intros H. each_digit d H; reflexivity. Qed.

Lemma digit_char_not_sign d : 0 <= d < 10 ->
  Ascii.eqb (digit_char d) "+" = false /\
  Ascii.eqb (digit_char d) "-" = false.
Proof. intros H. each_digit d H; split; reflexivity. Qed.

Lemma parseDigits_step d rest n :
  0 <= d < 10 -> 0 <= n -> n * 10 + d <= max_unsigned ->
  parseDigits (String (digit_char d) rest) n = parseDigits rest (n * 10 + d).
Proof.
  intros Hd Hn Hmax. cbn [parseDigits]. rewrite digit_val_char by done.
  unfold max_unsigned in *.
  change ((2 ^ 64 - 1) / 10 + 1) with 1844674407370955162.
  rewrite (proj2 (Z.leb_gt _ _)) by lia.
  rewrite (proj2 (Z.ltb_ge _ _)) by lia.
  reflexivity.
Qed.

Lemma parseDigits_formatBits fuel : forall u acc,
  0 <= u <= max_unsigned -> u < 10 ^ Z.of_nat fuel ->
  parseDigits (formatBits fuel u acc) 0 = parseDigits acc u.
Proof.
  induction fuel as [|fuel IH]; intros u acc Hu Hlt.
  - cbn in Hlt. assert (u = 0) as -> by lia. reflexivity.
  - cbn [formatBits]. destruct (Z.ltb_spec u 10) as [Hsmall|Hbig].
    + rewrite parseDigits_step; [f_equal|..]; lia.
    + pose proof (Z.div_mod u 10 ltac:(lia)) as Hdm.
      pose proof (Z.mod_pos_bound u 10 ltac:(lia)) as Hm.
      rewrite IH.
      * rewrite parseDigits_step; [f_equal|..]; lia.
      * lia.
      * rewrite Nat2Z.inj_succ, Z.pow_succ_r in Hlt by lia.
        apply Z.div_lt_upper_bound; lia.
Qed.

Lemma formatBits_head fuel : forall u acc,
  0 <= u ->
  (fuel <> O \/ exists d r, 0 <= d < 10 /\ acc = String (digit_char d) r) ->
  exists d r, 0 <= d < 10 /\ formatBits fuel u acc = String (digit_char d) r.
Proof.
  induction fuel as [|fuel IH]; intros u acc Hu Hor.
  - destruct Hor as [?|Hacc]; [done|exact Hacc].
  - cbn [formatBits]. destruct (Z.ltb_spec u 10) as [Hsmall|Hbig].
    + exists u, acc. split; [lia|done].
    + apply IH.
      * apply Z.div_pos; lia.
      * right. exists (u mod 10), acc.
        split; [apply Z.mod_pos_bound; lia|done].
Qed.

Lemma ParseUint_FormatUint u :
  in_uint64 u -> ParseUint (FormatUint u) = UOk u.
Proof.
  intros Hu. unfold in_uint64 in Hu.
  destruct (formatBits_head 20 u "" ltac:(lia) ltac:(left; done))
    as (d & r & Hd & Hfmt).
  unfold ParseUint, FormatUint. rewrite Hfmt, <- Hfmt.
  rewrite parseDigits_formatBits; [reflexivity|done|].
  unfold max_unsigned in Hu.
  change (10 ^ Z.of_nat 20) with 100000000000000000000. lia.
Qed.

(** Round trip used by the reverse pool index: what [FormatInt] prints,
    [ParseInt] reads back. *)
Lemma ParseInt_FormatInt i :
  in_int64 i -> ParseInt (FormatInt i) = (i, None).
Proof.
  intros Hi. unfold in_int64, min_signed, max_signed in Hi.
  unfold FormatInt. destruct (Z.ltb_spec i 0) as [Hneg|Hpos].
  - cbn [ParseInt]. change (Ascii.eqb "-" "+") with false.
    change (Ascii.eqb "-" "-") with true. cbn iota.
    rewrite ParseUint_FormatUint by (unfold in_uint64, max_unsigned; lia).
    cbn [negb andb].
    rewrite (proj2 (Z.ltb_ge _ _)) by lia.
    f_equal. lia.
  - destruct (formatBits_head 20 i "" ltac:(lia) ltac:(left; done))
      as (d & r & Hd & Hfmt).
    pose proof (ParseUint_FormatUint i) as Hparse.
    unfold FormatUint in *. rewrite Hfmt in *.
    destruct (digit_char_not_sign d Hd) as [Hplus Hminus].
    cbn [ParseInt]. rewrite Hplus, Hminus.
    rewrite Hparse by (unfold in_uint64, max_unsigned; lia).
    cbn [negb andb].
    rewrite (proj2 (Z.leb_gt _ _)) by lia.
    reflexivity.
Qed.

Lemma FormatInt_inj i j :
  in_int64 i -> in_int64 j -> FormatInt i = FormatInt j -> i = j.
Proof.
  intros Hi Hj Heq.
  pose proof (ParseInt_FormatInt i Hi) as Pi.
  pose proof (ParseInt_FormatInt j Hj) as Pj.
  rewrite Heq in Pi. congruence.
Qed.

End strconv_facts.

Lemma prefix_append (s t : string) : String.prefix s (s +:+ t) = true.
Proof.
  induction s as [|c s IH].
  - by destruct t.
  - change (String c s +:+ t) with (String c (s +:+ t)).
    cbn [String.prefix]. rewrite IH. by destruct (Ascii.ascii_dec c c).
Qed.

Lemma append_inv_head (s t u : string) : s +:+ t = s +:+ u -> t = u.
Proof.
  induction s as [|c s IH]; [done|].
  change (String c s +:+ t) with (String c (s +:+ t)).
  change (String c s +:+ u) with (String c (s +:+ u)).
  intros [= H]. by apply IH.
Qed.

(** Two leaves of a tree sealed at the same reading of the clock have
    different identifiers (a slice is shorter than [2^63]). *)
Lemma sealed_identifiers_distinct influxTimeID (leafs : list Node) i j li lj bi bj :
  Z.of_nat (length leafs) <= max_signed ->
  leafs !! i = Some li -> leafs !! j = Some lj ->
  sealed influxTimeID i li = CStorageBucket bi ->
  sealed influxTimeID j lj = CStorageBucket bj ->
  ID bi = ID bj -> i = j.
Proof.
  intros Hlen Hi Hj Hbi Hbj Heq.
  apply lookup_lt_Some in Hi, Hj.
  unfold sealed in Hbi, Hbj.
  destruct (C li), (C lj); try done.
  injection Hbi as <-. injection Hbj as <-. cbn [ID] in Heq.
  apply append_inv_head in Heq.
  change ("." +:+ strconv.FormatInt (Z.of_nat i)
          = "." +:+ strconv.FormatInt (Z.of_nat j)) in Heq.
  apply append_inv_head in Heq.
  apply FormatInt_inj in Heq; unfold in_int64, min_signed, max_signed in *; lia.
Qed.

Section storage_tree_builder.
Context `{Ext : Externals}.

Lemma bucketsLoop_spec influxTimeID leafs : forall i acc firstDate lastDate,
  forallb is_bucket leafs = true ->
  bucketsLoop influxTimeID leafs i acc firstDate lastDate
  = Ret ((acc ++ imap (fun k => sealed influxTimeID (i + k)) leafs)%list,
         foldl Z.min firstDate (leaf_time <$> leafs),
         foldl Z.max lastDate (leaf_time <$> leafs)).
Proof.
  induction leafs as [|leaf rest IH]; intros i acc firstDate lastDate Hall.
  - cbn. by rewrite app_nil_r.
  - cbn in Hall. apply andb_prop in Hall as [Hleaf Hrest].
    unfold is_bucket in Hleaf. cbn [bucketsLoop].
    destruct (C leaf) as [b|] eqn:HC; [|done].
    rewrite IH by done. cbn [Timestamp].
    f_equal. f_equal; [f_equal|].
    + rewrite <- app_assoc. f_equal. cbn [imap app]. f_equal.
      * unfold sealed. by rewrite HC, Nat.add_0_r.
      * apply imap_ext. intros k x _. cbn. by rewrite Nat.add_succ_r.
    + cbn [fmap list_fmap foldl]. f_equal.
      unfold leaf_time, time.Before. rewrite HC.
      destruct (Z.ltb_spec (Timestamp b) firstDate); lia.
    + cbn [fmap list_fmap foldl]. f_equal.
      unfold leaf_time, time.Before. rewrite HC.
      destruct (Z.ltb_spec lastDate (Timestamp b)); lia.
Qed.

(** C1. Sealing a tree with [n] leaves takes one reading
    [influxTimeID] of the clock and hands to the tree builder, for
    every index [i] below [n], the bucket of leaf [i] with identifier
    [<influxTimeID in nanoseconds>.<i>]: every identifier starts with
    the build time, and the indices run from 0 without a gap. *)
Theorem C1_leaf_identifiers db tree topic influxTimeID firstDate0 :
  forallb is_bucket (Leafs tree) = true ->
  exists bucketsWithID firstDate lastDate,
    bucketsLoop influxTimeID (Leafs tree) 0 [] firstDate0 time.zero
    = Ret (bucketsWithID, firstDate, lastDate)
    /\ SetStorageTreeInflux db tree topic influxTimeID firstDate0
       = storeBuckets db topic influxTimeID bucketsWithID firstDate lastDate
    /\ length bucketsWithID = length (Leafs tree)
    /\ forall (i : nat) leaf, Leafs tree !! i = Some leaf ->
         exists b0 b,
           C leaf = CStorageBucket b0
           /\ bucketsWithID !! i = Some (CStorageBucket b)
           /\ ID b = strconv.FormatInt (time.UnixNano influxTimeID)
                     +:+ "." +:+ strconv.FormatInt (Z.of_nat i)
           /\ String.prefix
                (strconv.FormatInt (time.UnixNano influxTimeID)) (ID b) = true
           /\ Timestamp b = Timestamp b0
           /\ Payload b = Payload b0.
Proof.
  intros Hall.
  pose proof (bucketsLoop_spec influxTimeID (Leafs tree) 0 []
                firstDate0 time.zero Hall) as Hloop.
  eexists _, _, _. split; [exact Hloop|split; [|split]].
  - unfold SetStorageTreeInflux. rewrite Hloop. reflexivity.
  - cbn [app]. by rewrite length_imap.
  - intros i leaf Hleaf. cbn [app].
    rewrite list_lookup_imap, Hleaf. cbn.
    assert (is_bucket leaf = true) as Hb.
    { rewrite forallb_forall in Hall. apply Hall.
      apply list_elem_of_In. by eapply list_elem_of_lookup_2. }
    unfold is_bucket in Hb. unfold sealed.
    destruct (C leaf) as [b0|] eqn:HC; [|done].
    eexists b0, _. repeat split; try reflexivity.
    cbn [ID]. apply prefix_append.
Qed.

End storage_tree_builder.

(** The three-leaf tree of the test double, sealed at [T0]. *)
Lemma C1_leaf_identifiers_witness :
  forallb is_bucket (Leafs Double.sampleTree) = true
  /\ exists bucketsWithID firstDate lastDate,
      bucketsLoop Double.T0 (Leafs Double.sampleTree) 0 []
        (Double.T0 + 1) time.zero
      = Ret (bucketsWithID, firstDate, lastDate)
      /\ SetStorageTreeInflux
        {| redisClient := None; influxClient := None;
           influxBatchPoints := None; influxPointsInBatch := 0 |}
        Double.sampleTree "prices" Double.T0 (Double.T0 + 1)
      = storeBuckets
          {| redisClient := None; influxClient := None;
             influxBatchPoints := None; influxPointsInBatch := 0 |}
          "prices" Double.T0 bucketsWithID firstDate lastDate
      /\ length bucketsWithID = length (Leafs Double.sampleTree)
      /\ forall (i : nat) leaf, Leafs Double.sampleTree !! i = Some leaf ->
           exists b0 b,
             C leaf = CStorageBucket b0
             /\ bucketsWithID !! i = Some (CStorageBucket b)
             /\ ID b = strconv.FormatInt (time.UnixNano Double.T0)
                       +:+ "." +:+ strconv.FormatInt (Z.of_nat i)
             /\ String.prefix
                  (strconv.FormatInt (time.UnixNano Double.T0)) (ID b) = true
             /\ Timestamp b = Timestamp b0
             /\ Payload b = Payload b0.
Proof.
  split; [reflexivity|].
  apply (C1_leaf_identifiers (Ext := Double.externals)). reflexivity.
Defined.

Example sealed_identifiers :
  (fun c => match c with CStorageBucket b => ID b | COther _ => "" end)
    <$> imap (sealed Double.T0) (Leafs Double.sampleTree)
  = ["1614852000000000000.0"; "1614852000000000000.1"; "1614852000000000000.2"].
Proof. vm_compute. reflexivity. Qed.

(** ** Batch buffer *)

Lemma same_series_refl p : influx.same_series p p = true.
Proof.
  unfold influx.same_series.
  rewrite !bool_decide_eq_true_2 by done. cbn. apply Z.eqb_refl.
Qed.

Lemma upsert_stored pt rows : stored pt (influx.upsert pt rows).
Proof.
  induction rows as [|q rows IH]; cbn [influx.upsert].
  - exists pt. split; [apply list_elem_of_here|done].
  - destruct (influx.same_series pt q) eqn:Hs.
    + unfold influx.same_series in Hs.
      apply andb_prop in Hs as [Hs Ht]. apply andb_prop in Hs as [Hn Hg].
      apply bool_decide_eq_true_1 in Hn, Hg. apply Z.eqb_eq in Ht.
      eexists. split; [apply list_elem_of_here|]. cbn.
      repeat split; try done. apply map_union_subseteq_l.
    + destruct IH as (r & Hin & Hr).
      exists r. split; [by apply list_elem_of_further|done].
Qed.

Section batch_buffer.
Context `{Ext : Externals}.

Lemma with_influx_same db clnt :
  influxClient db = Some clnt -> with_influx db (Some clnt) = db.
Proof. destruct db; cbn; by intros ->. Qed.

Lemma WriteAuditBatchInflux_failure db clnt e bp :
  influxClient db = Some clnt -> influx.fault clnt = Some e ->
  influxBatchPoints db = Some bp ->
  WriteAuditBatchInflux db = Ret (with_batch db (Some []), Some e).
Proof.
  intros Hc He Hb. unfold WriteAuditBatchInflux, influx.Write.
  rewrite Hc, Hb, He. cbn. by rewrite with_influx_same.
Qed.

Lemma WriteAuditBatchInflux_success db clnt bp :
  influxClient db = Some clnt -> influx.fault clnt = None ->
  influxBatchPoints db = Some bp ->
  WriteAuditBatchInflux db
  = Ret (with_count
           (with_influx db
              (Some {| influx.fault := None;
                       influx.points := influx.write_all bp (influx.points clnt) |}))
           0, None).
Proof.
  intros Hc He Hb. unfold WriteAuditBatchInflux, influx.Write.
  rewrite Hc, Hb, He. reflexivity.
Qed.

(** C6. A flush that fails throws the batch away and puts a freshly
    created, empty one in its place.  The next append therefore works
    on an empty batch: it holds the appended point alone (or is emptied
    once more if the threshold flush fires while the store is still
    failing).  The writer is not stuck: as soon as the store answers
    again, append and flush succeed and the appended point is stored. *)
Theorem C6_failed_flush_recreates_batch db clnt e bp :
  influxClient db = Some clnt -> influx.fault clnt = Some e ->
  influxBatchPoints db = Some bp ->
  let db1 := with_batch db (Some []) in
  WriteAuditBatchInflux db = Ret (db1, Some e)
  /\ FlushAuditBatch db = Ret (db1, Some e)
  /\ (forall pt,
        let db2 := with_count (with_batch db1 (Some [pt]))
                     (wrap64 (influxPointsInBatch db + 1)) in
        addAuditPoint db1 pt
        = if influxMaxPointsInBatch <=? influxPointsInBatch db2
          then Ret (with_batch db2 (Some []))
          else Ret db2)
  /\ (forall pt clnt', influx.fault clnt' = None ->
        exists db2 db3 clnt3,
          addAuditPoint (with_influx db1 (Some clnt')) pt = Ret db2
          /\ WriteAuditBatchInflux db2 = Ret (db3, None)
          /\ influxClient db3 = Some clnt3
          /\ stored pt (influx.points clnt3)
          /\ influxBatchPoints db3 = Some [pt]
          /\ influxPointsInBatch db3 = 0).
Proof.
  intros Hc He Hb db1.
  pose proof (WriteAuditBatchInflux_failure db clnt e bp Hc He Hb) as Hw.
  split; [exact Hw|]. split; [by unfold FlushAuditBatch; rewrite Hb|].
  split.
  - intros pt db2. unfold addAuditPoint. cbn [influxBatchPoints db1 with_batch app].
    fold db2. change (influxPointsInBatch (with_batch db1 (Some [pt])))
      with (influxPointsInBatch db).
    fold db2.
    destruct (influxMaxPointsInBatch <=? influxPointsInBatch db2); [|done].
    rewrite (WriteAuditBatchInflux_failure db2 clnt e [pt]); done.
  - intros pt clnt' Hok.
    set (n := wrap64 (influxPointsInBatch db + 1)).
    set (dbr := with_count (with_batch (with_influx db1 (Some clnt')) (Some [pt])) n).
    assert (addAuditPoint (with_influx db1 (Some clnt')) pt
            = if influxMaxPointsInBatch <=? n
              then '(d, _) ← WriteAuditBatchInflux dbr; Ret d
              else Ret dbr) as Hadd by reflexivity.
    rewrite Hadd.
    destruct (influxMaxPointsInBatch <=? n).
    + rewrite (WriteAuditBatchInflux_success dbr clnt' [pt]) by done.
      cbn [mbind outcome_bind].
      eexists _, _, _. split; [reflexivity|].
      split; [by erewrite WriteAuditBatchInflux_success|].
      cbn. repeat split. apply upsert_stored.
    + eexists _, _, _. split; [reflexivity|].
      split; [by erewrite WriteAuditBatchInflux_success|].
      cbn. repeat split. apply upsert_stored.
Qed.


End batch_buffer.

Lemma C6_failed_flush_recreates_batch_witness :
  influxClient Double.db_down = Some Double.down
  /\ influx.fault Double.down = Some Double.refused
  /\ influxBatchPoints Double.db_down = Some [Double.pt0]
  /\ let db1 := with_batch Double.db_down (Some []) in
     WriteAuditBatchInflux Double.db_down = Ret (db1, Some Double.refused)
     /\ FlushAuditBatch Double.db_down = Ret (db1, Some Double.refused)
     /\ (forall pt,
           let db2 := with_count (with_batch db1 (Some [pt]))
                        (wrap64 (influxPointsInBatch Double.db_down + 1)) in
           addAuditPoint db1 pt
           = if influxMaxPointsInBatch <=? influxPointsInBatch db2
             then Ret (with_batch db2 (Some []))
             else Ret db2)
     /\ (forall pt clnt', influx.fault clnt' = None ->
           exists db2 db3 clnt3,
             addAuditPoint (with_influx db1 (Some clnt')) pt = Ret db2
             /\ WriteAuditBatchInflux db2 = Ret (db3, None)
             /\ influxClient db3 = Some clnt3
             /\ stored pt (influx.points clnt3)
             /\ influxBatchPoints db3 = Some [pt]
             /\ influxPointsInBatch db3 = 0).
Proof.
  split; [reflexivity|]. split; [reflexivity|]. split; [reflexivity|].
  apply (C6_failed_flush_recreates_batch (Ext := Double.externals)
           Double.db_down Double.down Double.refused [Double.pt0]);
    reflexivity.
Defined.


(** From a fresh store with threshold 3: two writes fail while InfluxDB
    is down, each leaving an empty batch and a counter one higher; once
    InfluxDB is back, the next append alone already flushes, with a
    single point in the batch. *)
Example early_threshold_flush :
  let db0 := {| redisClient := None; influxClient := Some Double.down;
                influxBatchPoints := Some []; influxPointsInBatch := 0 |} in
  exists db1 db2 db3 e1 e2,
    (db ← addAuditPoint db0 Double.pt0; WriteAuditBatchInflux db) = Ret (db1, Some e1)
    /\ (db ← addAuditPoint db1 Double.pt0; WriteAuditBatchInflux db) = Ret (db2, Some e2)
    /\ influxBatchPoints db2 = Some [] /\ influxPointsInBatch db2 = 2
    /\ addAuditPoint (with_influx db2 (Some Double.up)) Double.pt1 = Ret db3
    /\ influxClient db3
       = Some {| influx.fault := None; influx.points := [Double.pt1] |}
    /\ influxPointsInBatch db3 = 0.
Proof.
  cbv zeta. eexists _, _, _, _, _.
  split; [vm_compute; reflexivity|].
  split; [vm_compute; reflexivity|].
  split; [reflexivity|]. split; [reflexivity|].
  split; [vm_compute; reflexivity|].
  split; reflexivity.
Qed.

(** ** Reverse pool index *)

Lemma poolMap_of_lookup_gen (children : list string) (ID : Z) :
  forall (m : gmap string Z) (c : string),
    foldl (fun poolMap num => <[num := ID]> poolMap) m children !! c
    = if decide (c ∈ children) then Some ID else m !! c.
Proof.
  induction children as [|x xs IH]; intros m c; cbn [foldl].
  - rewrite decide_False; [done|]. apply not_elem_of_nil.
  - rewrite IH. destruct (decide (c ∈ xs)) as [Hin|Hout].
    + rewrite decide_True; [done|]. by apply list_elem_of_further.
    + destruct (decide (x = c)) as [->|Hne].
      * rewrite lookup_insert_eq.
        rewrite decide_True; [done|]. apply list_elem_of_here.
      * rewrite lookup_insert_ne by done.
        rewrite decide_False; [done|].
        intros Hc. apply elem_of_cons in Hc as [->|?]; done.
Qed.

Lemma poolMap_of_lookup children ID c :
  c ∈ children -> poolMap_of children ID !! c = Some ID.
Proof.
  intros Hin. unfold poolMap_of. rewrite poolMap_of_lookup_gen.
  by rewrite decide_True.
Qed.

Section reverse_pool_index.
Context `{Ext : Externals}.

(** What a successful [SetPoolID] leaves in Redis. *)
Lemma SetPoolID_success db topic children ID db' :
  SetPoolID db topic children ID = Ret (db', None) ->
  exists clnt,
    redisClient db = Some clnt
    /\ redis.fault clnt = None
    /\ db' = with_redis db
               (Some {| redis.fault := None;
                        redis.hashes :=
                          <[getKeyPoolIDs topic :=
                              (strconv.FormatInt <$> poolMap_of children ID)
                              ∪ default ∅ (redis.hashes clnt !! getKeyPoolIDs topic)]>
                            (redis.hashes clnt) |}).
Proof.
  unfold SetPoolID, redis.HSet. intros H.
  destruct (redisClient db) as [clnt|]; [|done].
  destruct (redis.fault clnt) as [e|] eqn:Hf; [done|].
  destruct (bool_decide (poolMap_of children ID = ∅)); [done|].
  exists clnt. split; [done|]. split; [done|]. congruence.
Qed.

Lemma pool_entry_after_SetPoolID db topic children ID db' c :
  SetPoolID db topic children ID = Ret (db', None) ->
  c ∈ children ->
  pool_entry db' topic c = Some (strconv.FormatInt ID).
Proof.
  intros Hset Hin.
  destruct (SetPoolID_success _ _ _ _ _ Hset) as (clnt & _ & _ & ->).
  unfold pool_entry. cbn. rewrite lookup_insert_eq. cbn.
  apply lookup_union_Some_l. rewrite lookup_fmap.
  by rewrite poolMap_of_lookup.
Qed.

Lemma GetPoolsParentID_entry db topic c ID clnt :
  redisClient db = Some clnt -> redis.fault clnt = None ->
  pool_entry db topic c = Some (strconv.FormatInt ID) ->
  in_int64 ID ->
  GetPoolsParentID db c topic = Ret (ID, None).
Proof.
  intros Hc Hf Hentry HID. unfold pool_entry in Hentry.
  unfold GetPoolsParentID, redis.HGet. rewrite Hc in *. rewrite Hf.
  cbn in Hentry. cbv zeta. rewrite Hentry.
  by rewrite ParseInt_FormatInt.
Qed.

Lemma GetPoolsParentID_after_SetPoolID db topic children ID db' c :
  in_int64 ID ->
  SetPoolID db topic children ID = Ret (db', None) ->
  c ∈ children -> GetPoolsParentID db' c topic = Ret (ID, None).
Proof.
  intros HID Hset Hin.
  pose proof (pool_entry_after_SetPoolID _ _ _ _ _ c Hset Hin) as Hentry.
  destruct (SetPoolID_success _ _ _ _ _ Hset) as (clnt & _ & _ & Hdb').
  eapply GetPoolsParentID_entry; [|..|exact Hentry|exact HID].
  - rewrite Hdb'. reflexivity.
  - reflexivity.
Qed.

(** C3. Round trip of the reverse pool index: once
    [SetPoolID(topic, children, ID)] has succeeded,
    [GetPoolsParentID(c, topic)] returns [ID], without error, for every
    [c] among [children]. *)
Theorem C3_pool_index_round_trip db topic children ID db' :
  in_int64 ID ->
  SetPoolID db topic children ID = Ret (db', None) ->
  forall c, c ∈ children -> GetPoolsParentID db' c topic = Ret (ID, None).
Proof.
  intros HID Hset c Hin. by eapply GetPoolsParentID_after_SetPoolID.
Qed.

Lemma WriteAuditBatchInflux_redis db db' err :
  WriteAuditBatchInflux db = Ret (db', err) -> redisClient db' = redisClient db.
Proof.
  unfold WriteAuditBatchInflux, influx.Write.
  destruct (influxClient db) as [srv|]; [|done].
  destruct (influxBatchPoints db) as [bp|]; [|done].
  destruct (influx.fault srv); cbn; intros [= <- _]; reflexivity.
Qed.

Lemma addAuditPoint_redis db pt db' :
  addAuditPoint db pt = Ret db' -> redisClient db' = redisClient db.
Proof.
  unfold addAuditPoint. destruct (influxBatchPoints db) as [bp|]; [|done].
  match goal with |- context [WriteAuditBatchInflux ?d] => set (d1 := d) end.
  destruct (influxMaxPointsInBatch <=? _).
  - destruct (WriteAuditBatchInflux d1) as [[d2 e]|] eqn:Hw; [|done].
    cbn. intros [= <-]. by rewrite (WriteAuditBatchInflux_redis _ _ _ Hw).
  - by intros [= <-].
Qed.

Lemma pool_entry_redis db db' topic c :
  redisClient db' = redisClient db -> pool_entry db' topic c = pool_entry db topic c.
Proof. unfold pool_entry. by intros ->. Qed.

Lemma GetPoolsParentID_redis db db' c topic :
  redisClient db' = redisClient db ->
  GetPoolsParentID db' c topic = GetPoolsParentID db c topic.
Proof. unfold GetPoolsParentID. by intros ->. Qed.

(** Whatever [SetDailyTreeInflux] returns, Redis is as its call of
    [SetPoolID] left it. *)
Lemma SetDailyTreeInflux_redis db tree ID topic children lastTimestamp now db1 e1 db' :
  SetPoolID db topic children ID = Ret (db1, e1) ->
  SetDailyTreeInflux db tree ID topic "2" children lastTimestamp now = Ret (db', None) ->
  redisClient db' = redisClient db1.
Proof.
  intros Hset Hdaily. unfold SetDailyTreeInflux in Hdaily.
  destruct (json_Marshal_tree tree) as [marshTree [e|]]; [done|].
  rewrite bool_decide_eq_true_2 in Hdaily by done.
  rewrite Hset in Hdaily. cbn [mbind outcome_bind] in Hdaily.
  destruct (json_Marshal_strings children) as [childrenData [e|]]; [done|].
  destruct (NewPoint _ _ _ _) as [pt [e|]].
  - cbn [mbind outcome_bind] in Hdaily.
    apply (WriteAuditBatchInflux_redis _ _ _ Hdaily).
  - destruct (addAuditPoint db1 pt) as [d2|] eqn:Hadd; [|done].
    cbn [mbind outcome_bind] in Hdaily.
    rewrite (WriteAuditBatchInflux_redis _ _ _ Hdaily).
    apply (addAuditPoint_redis _ _ _ Hadd).
Qed.

(** C2, as the code has it.  After [SetDailyTreeInflux] has returned
    successfully with level ["2"], every child has its entry under the
    topic, mapping it to the parent, provided the call of [SetPoolID]
    made on the way succeeded; the error of that call is dropped, so a
    successful return alone does not tell. *)
Theorem C2_pool_entries_when_index_written
    db tree ID topic children lastTimestamp now db1 db' :
  in_int64 ID ->
  SetPoolID db topic children ID = Ret (db1, None) ->
  SetDailyTreeInflux db tree ID topic "2" children lastTimestamp now
  = Ret (db', None) ->
  forall c, c ∈ children ->
    pool_entry db' topic c = Some (strconv.FormatInt ID)
    /\ GetPoolsParentID db' c topic = Ret (ID, None).
Proof.
  intros HID Hset Hdaily c Hin.
  pose proof (SetDailyTreeInflux_redis _ _ _ _ _ _ _ _ _ _ Hset Hdaily) as Hredis.
  split.
  - rewrite (pool_entry_redis _ _ _ _ Hredis).
    by eapply pool_entry_after_SetPoolID.
  - rewrite (GetPoolsParentID_redis _ _ _ _ Hredis).
    by eapply GetPoolsParentID_after_SetPoolID.
Qed.

End reverse_pool_index.

(** The pooling scenario: ["100.0"], ["100.1"] and ["100.2"] pooled under
    parent 500 for ["prices"]; the parent of ["100.1"] is then 500. *)
Lemma C3_pool_index_round_trip_witness :
  in_int64 500
  /\ exists db',
      SetPoolID Double.db_fresh "prices" Double.children 500 = Ret (db', None)
      /\ "100.1" ∈ Double.children
      /\ GetPoolsParentID db' "100.1" "prices" = Ret (500, None).
Proof.
  assert (in_int64 500) as HID by (unfold in_int64, min_signed, max_signed; lia).
  assert ("100.1" ∈ Double.children) as Hin by (repeat constructor).
  split; [exact HID|].
  eexists. split; [reflexivity|]. split; [exact Hin|].
  apply (C3_pool_index_round_trip
           Double.db_fresh "prices" Double.children 500 _ HID eq_refl _ Hin).
Defined.

Lemma C2_pool_entries_when_index_written_witness :
  in_int64 500
  /\ exists db1 db',
      SetPoolID Double.db_fresh "prices" Double.children 500 = Ret (db1, None)
      /\ SetDailyTreeInflux Double.db_fresh Double.sampleTree 500 "prices" "2"
           Double.children Double.T0 (Double.T0 + 1) = Ret (db', None)
      /\ "100.1" ∈ Double.children
      /\ pool_entry db' "prices" "100.1" = Some (strconv.FormatInt 500)
      /\ GetPoolsParentID db' "100.1" "prices" = Ret (500, None).
Proof.
  assert (in_int64 500) as HID by (unfold in_int64, min_signed, max_signed; lia).
  assert ("100.1" ∈ Double.children) as Hin by (repeat constructor).
  split; [exact HID|].
  eexists _, _. split; [reflexivity|]. split; [vm_compute; reflexivity|].
  split; [exact Hin|].
  refine (C2_pool_entries_when_index_written (Ext := Double.externals)
            Double.db_fresh Double.sampleTree 500 "prices" Double.children
            Double.T0 (Double.T0 + 1) _ _ HID eq_refl _ "100.1" Hin).
  vm_compute. reflexivity.
Defined.

(** C2, as stated, fails: with Redis refusing the connection and
    InfluxDB answering, [SetDailyTreeInflux] at level ["2"] returns
    without error, and no child has an entry; a later lookup, with Redis
    back, finds none. *)
Lemma C2_counterexample :
  exists db',
    SetDailyTreeInflux Double.db_no_redis Double.sampleTree 500 "prices" "2"
      Double.children Double.T0 (Double.T0 + 1) = Ret (db', None)
    /\ "100.1" ∈ Double.children
    /\ pool_entry db' "prices" "100.1" = None
    /\ GetPoolsParentID
         (with_redis db' (Some {| redis.fault := None; redis.hashes := ∅ |}))
         "100.1" "prices"
       = Ret (-2, Some (errorString
                          (no_entry_message "100.1" "prices"))).
Proof.
  eexists. split; [vm_compute; reflexivity|].
  split; [repeat constructor|].
  split; vm_compute; reflexivity.
Qed.

(** ** Persistence gateway *)

Lemma select_no_match q rows :
  (forall p, p ∈ rows -> influx.matches q p = false) ->
  influx.select q rows = [].
Proof.
  intros Hno. unfold influx.select.
  assert (filter (fun p => influx.matches q p = true) rows = []) as ->.
  { induction rows as [|r rows IH]; [done|].
    rewrite filter_cons. rewrite decide_False.
    - apply IH. intros p Hp. apply Hno. by apply list_elem_of_further.
    - rewrite Hno; [done|]. apply list_elem_of_here. }
  cbn. destruct (influx.descending q), (influx.limit q) as [[|n]|]; reflexivity.
Qed.





Lemma Query_no_match clnt q :
  influx.fault clnt = None ->
  forallb influx.well_formed (influx.where_ q) = true ->
  (forall p, p ∈ influx.points clnt -> influx.matches q p = false) ->
  queryAuditDB (Some clnt) q = Ret ([ {| influx.Series := [] |} ], None).
Proof.
  intros Hf Hwf Hno. unfold queryAuditDB, influx.Query_.
  by rewrite Hf, Hwf, select_no_match.
Qed.

Section persistence_gateway.
Context `{Ext : Externals}.




Lemma GetDailyTreeByID_no_match db clnt topic level ID :
  influxClient db = Some clnt -> influx.fault clnt = None ->
  (forall p, p ∈ influx.points clnt ->
     influx.matches (dailyByIDQuery topic level ID) p = false) ->
  GetDailyTreeByID db topic level ID = Ret (merkletree.zero, None).
Proof.
  intros Hc Hf Hno. unfold GetDailyTreeByID. rewrite Hc.
  by rewrite Query_no_match.
Qed.

Lemma GetStorageTreeByID_no_match db clnt topic ID :
  influxClient db = Some clnt -> influx.fault clnt = None ->
  is_Some (influx.time_literal ID) ->
  (forall p, p ∈ influx.points clnt ->
     influx.matches (storageByIDQuery topic ID) p = false) ->
  GetStorageTreeByID db topic ID
  = Ret (merkletree.zero, Some (errorString "empty response")).
Proof.
  intros Hc Hf Hlit Hno. unfold GetStorageTreeByID. rewrite Hc.
  rewrite Query_no_match; [done|done| |done].
  cbn. by rewrite bool_decide_eq_true_2.
Qed.

End persistence_gateway.


Example earliest_after_finds_later_record :
  GetStorageTreeInflux Double.db_store "prices" (Double.T0 - 1)
  = Ret (Double.sampleTree, Double.T0, None).
Proof. vm_compute. reflexivity. Qed.



(** ** Exact-key lookups *)

(** C9 at an input where it fails.  [GetDailyTreeByID] for an identifier
    that no record carries returns the zero tree and a nil error,
    exactly what it returns for a stored record whose tree is the zero
    tree; [GetStorageTreeByID] reports ["empty response"] in that case. *)
Theorem C9_GetDailyTreeByID_no_match_returns_nil :
  GetDailyTreeByID Double.db_fresh "prices" "2" 500
  = Ret (merkletree.zero, None)
  /\ GetDailyTreeByID Double.db_store "prices" "2" 500
     = Ret (merkletree.zero, None)
  /\ GetStorageTreeByID Double.db_fresh "prices" "1614852000000000000"
     = Ret (merkletree.zero, Some (errorString "empty response")).
Proof. repeat split; vm_compute; reflexivity. Qed.

(** ** Inclusion search *)

Lemma decimal_chars_app s t :
  decimal_chars (s +:+ t) = decimal_chars s && decimal_chars t.
Proof.
  induction s as [|c s IH]; [done|].
  change (String c s +:+ t) with (String c (s +:+ t)).
  cbn [decimal_chars]. rewrite IH. by rewrite andb_assoc.
Qed.

Lemma decimal_digit_char d :
  0 <= d < 10 ->
  Ascii.eqb (strconv.digit_char d) "-"
  || bool_decide (is_Some (strconv.digit_val (strconv.digit_char d))) = true.
Proof.
  intros Hd. rewrite (bool_decide_eq_true_2 (is_Some _)); [apply orb_true_r|].
  rewrite digit_val_char by done. by eexists.
Qed.

Lemma decimal_formatBits fuel : forall u acc,
  0 <= u -> decimal_chars acc = true ->
  decimal_chars (strconv.formatBits fuel u acc) = true.
Proof.
  induction fuel as [|fuel IH]; intros u acc Hu Hacc; [done|].
  cbn [strconv.formatBits]. destruct (Z.ltb_spec u 10).
  - cbn [decimal_chars]. rewrite decimal_digit_char by lia. by rewrite Hacc.
  - apply IH; [apply Z.div_pos; lia|].
    cbn [decimal_chars]. rewrite decimal_digit_char, Hacc; [done|].
    apply Z.mod_pos_bound. lia.
Qed.

Lemma decimal_FormatInt z : decimal_chars (strconv.FormatInt z) = true.
Proof.
  unfold strconv.FormatInt, strconv.FormatUint. destruct (Z.ltb_spec z 0).
  - cbn [decimal_chars]. change (Ascii.eqb "-" "-") with true. cbn [orb andb].
    apply decimal_formatBits; [lia|done].
  - apply decimal_formatBits; [lia|done].
Qed.

(** The text [t.String()] of a time is never the decimal form of an
    integer: a storage tree's key, as printed by [FormatInt], is not
    among the values [FindStorageTree] can return for a found tree. *)
Lemma String_not_decimal t z : time.String_ t <> strconv.FormatInt z.
Proof.
  intros Heq. pose proof (decimal_FormatInt z) as Hd. rewrite <- Heq in Hd.
  unfold time.String_ in Hd.
  destruct (time.civil_of_days _) as [[y m] d].
  rewrite !decimal_chars_app in Hd.
  change (decimal_chars " +0000 UTC") with false in Hd.
  rewrite !andb_false_r in Hd. done.
Qed.

(** C4 at an input where it fails.  The three-leaf tree is sealed at
    [T0] for ["prices"]; its key is the decimal form of [T0], under
    which [GetStorageTreeByID] retrieves it and which [GetLastID]
    reports.  Searching for the payload of the second leaf from four
    seconds before [T0] finds the tree, and returns the calendar text
    of [T0] instead; handed to [GetStorageTreeByID], that text is
    rejected. *)
Theorem C4_FindStorageTree_returns_time_text :
  exists db1,
    SetStorageTreeInflux Double.db_fresh Double.sampleTree "prices"
      Double.T0 (Double.T0 + 1) = Ret (db1, None)
    /\ GetLastID db1 "prices" (Double.T0 + 2)
       = Ret ("1614852000000000000", None)
    /\ GetStorageTreeByID db1 "prices" "1614852000000000000"
       = Ret (Double.sealedTree, None)
    /\ FindStorageTree db1 (list_byte_of_string "p1")
         (Double.T0 - 4 * time.Second) "prices"
       = Ret ("2021-03-04 10:00:00 +0000 UTC", None)
    /\ GetStorageTreeByID db1 "prices" "2021-03-04 10:00:00 +0000 UTC"
       = Ret (merkletree.zero, Some (external "influxdb" "error parsing query")).
Proof.
  eexists. split; [vm_compute; reflexivity|].
  repeat split; vm_compute; reflexivity.
Qed.

Section inclusion_search.
Context `{Ext : Externals}.

(** One probe, no second one: the answer is decided by the first tree
    after [timeData] alone. *)
Lemma FindStorageTree_single_probe db data timeData topic tree timeTree :
  GetStorageTreeInflux db topic timeData = Ret (tree, timeTree, None) ->
  FindStorageTree db data timeData topic
  = match DataInStorageTree data tree with
    | (_, Some e) => Ret ("", Some e)
    | (true, None) => Ret (time.String_ timeTree, None)
    | (false, None) => Ret ("", None)
    end.
Proof.
  intros Hget. unfold FindStorageTree. rewrite Hget. cbn.
  by destruct (DataInStorageTree data tree) as [[|] [e|]].
Qed.

(** No tree after [timeData], and a membership check that finds nothing
    in the zero tree: the empty identifier, without error. *)
Lemma FindStorageTree_no_tree db clnt data timeData topic :
  influxClient db = Some clnt -> influx.fault clnt = None ->
  (forall p, p ∈ influx.points clnt ->
     influx.matches (storageAfterQuery topic timeData) p = false) ->
  DataInStorageTree data merkletree.zero = (false, None) ->
  FindStorageTree db data timeData topic = Ret ("", None).
Proof.
  intros Hc Hf Hno Hdata.
  rewrite (FindStorageTree_single_probe db data timeData topic
             merkletree.zero time.zero).
  - by rewrite Hdata.
  - unfold GetStorageTreeInflux. rewrite Hc. by rewrite Query_no_match.
Qed.

End inclusion_search.

(** ** Time range of a storage tree *)

Lemma foldl_min_cons a x l :
  foldl Z.min a (x :: l) = Z.min a (foldl Z.min x l).
Proof.
  cbn [foldl]. revert a x.
  induction l as [|y l IH]; intros a x; cbn [foldl]; [done|].
  rewrite !IH. lia.
Qed.

Lemma foldl_max_cons a x l :
  foldl Z.max a (x :: l) = Z.max a (foldl Z.max x l).
Proof.
  cbn [foldl]. revert a x.
  induction l as [|y l IH]; intros a x; cbn [foldl]; [done|].
  rewrite !IH. lia.
Qed.

Section storage_tree_dates.
Context `{Ext : Externals}.

(** The tags of a sealed tree: [firstDate] is the lesser of the second
    clock reading and the earliest leaf time, [lastDate] the greater of
    the zero time and the latest leaf time. *)
Lemma SetStorageTreeInflux_dates db leaf rest root topic influxTimeID firstDate0 :
  forallb is_bucket (leaf :: rest) = true ->
  let stamps := leaf_time <$> rest in
  SetStorageTreeInflux db {| merkleRoot := root; Leafs := leaf :: rest |}
    topic influxTimeID firstDate0
  = storeBuckets db topic influxTimeID
      (imap (sealed influxTimeID) (leaf :: rest))
      (Z.min firstDate0 (foldl Z.min (leaf_time leaf) stamps))
      (Z.max time.zero (foldl Z.max (leaf_time leaf) stamps)).
Proof.
  intros Hall stamps. unfold SetStorageTreeInflux. cbn [Leafs].
  rewrite bucketsLoop_spec by done.
  cbn [mbind outcome_bind app]. rewrite fmap_cons.
  by rewrite foldl_min_cons, foldl_max_cons.
Qed.

(** When the earliest leaf time does not come after the clock reading
    and the latest does not come before the zero time, the tags are the
    earliest and the latest leaf time. *)
Lemma SetStorageTreeInflux_dates_in_range
    db leaf rest root topic influxTimeID firstDate0 :
  forallb is_bucket (leaf :: rest) = true ->
  let stamps := leaf_time <$> rest in
  foldl Z.min (leaf_time leaf) stamps <= firstDate0 ->
  time.zero <= foldl Z.max (leaf_time leaf) stamps ->
  SetStorageTreeInflux db {| merkleRoot := root; Leafs := leaf :: rest |}
    topic influxTimeID firstDate0
  = storeBuckets db topic influxTimeID
      (imap (sealed influxTimeID) (leaf :: rest))
      (foldl Z.min (leaf_time leaf) stamps)
      (foldl Z.max (leaf_time leaf) stamps).
Proof.
  intros Hall stamps Hmin Hmax.
  rewrite SetStorageTreeInflux_dates by done. fold stamps.
  by rewrite Z.min_r, Z.max_r.
Qed.

End storage_tree_dates.

(** C7 at an input where it fails.  The only bucket is stamped five
    seconds after [T0]; the tree is sealed with the clock reading [T0]
    and, a nanosecond later, [T0 + 1].  The row written carries
    [lastDate], the bucket's time, and as [firstDate] the second clock
    reading, which is the time of no leaf. *)
Theorem C7_firstDate_is_clock_reading :
  exists db1 row,
    SetStorageTreeInflux Double.db_fresh Double.aheadTree "prices"
      Double.T0 (Double.T0 + 1) = Ret (db1, None)
    /\ influxClient db1
       = Some {| influx.fault := None; influx.points := [row] |}
    /\ leaf_time <$> Leafs Double.aheadTree = [1614852005000000000]
    /\ influx.tags row !! "firstDate" = Some "1614852000000000001"
    /\ influx.tags row !! "lastDate" = Some "1614852005000000000".
Proof.
  eexists _, _. split; [vm_compute; reflexivity|].
  split; [reflexivity|].
  repeat split; vm_compute; reflexivity.
Qed.

(** * Further properties of the store *)

(** ** Reverse pool index: what a pooling leaves alone, and failures *)

Lemma getKeyPoolIDs_inj topic topic' :
  getKeyPoolIDs topic = getKeyPoolIDs topic' -> topic = topic'.
Proof. unfold getKeyPoolIDs. apply append_inv_head. Qed.

Lemma poolMap_of_lookup_other children ID c :
  c ∉ children -> poolMap_of children ID !! c = None.
Proof.
  intros Hout. unfold poolMap_of. rewrite poolMap_of_lookup_gen.
  by rewrite decide_False.
Qed.

Lemma pool_entry_other_child db topic children ID db' c :
  SetPoolID db topic children ID = Ret (db', None) ->
  c ∉ children ->
  pool_entry db' topic c = pool_entry db topic c.
Proof.
  intros Hset Hout.
  destruct (SetPoolID_success _ _ _ _ _ Hset) as (clnt & Hc & _ & ->).
  unfold pool_entry. rewrite Hc. cbn.
  rewrite lookup_insert_eq. cbn.
  rewrite lookup_union_r
    by (by rewrite lookup_fmap, poolMap_of_lookup_other).
  by destruct (redis.hashes clnt !! getKeyPoolIDs topic).
Qed.

(** A successful [SetPoolID] changes the entries of the given children
    under the given topic and nothing else: any other child, and every
    child under any other topic, keeps the entry it had. *)
Theorem SetPoolID_leaves_other_entries db topic children ID db' topic' c :
  SetPoolID db topic children ID = Ret (db', None) ->
  topic' <> topic \/ c ∉ children ->
  pool_entry db' topic' c = pool_entry db topic' c.
Proof.
  intros Hset Hother.
  destruct (decide (topic' = topic)) as [->|Hne].
  - destruct Hother as [?|Hout]; [done|].
    by eapply pool_entry_other_child.
  - destruct (SetPoolID_success _ _ _ _ _ Hset) as (clnt & Hc & _ & ->).
    unfold pool_entry. rewrite Hc. cbn.
    rewrite lookup_insert_ne; [done|].
    intros Heq. by apply getKeyPoolIDs_inj in Heq.
Qed.

Lemma with_redis_same db clnt :
  redisClient db = Some clnt -> with_redis db (Some clnt) = db.
Proof. destruct db; cbn; by intros ->. Qed.

(** [SetPoolID] fails, and leaves the store as it was, when Redis
    refuses the command and when the list of children is empty (the
    command then has no field to set). *)
Theorem SetPoolID_failure_changes_nothing db clnt topic children ID :
  redisClient db = Some clnt ->
  is_Some (redis.fault clnt) \/ children = [] ->
  exists e, SetPoolID db topic children ID = Ret (db, Some e).
Proof.
  intros Hc Hwhy. unfold SetPoolID, redis.HSet. rewrite Hc.
  destruct (redis.fault clnt) as [e|] eqn:Hf.
  - exists e. by rewrite with_redis_same.
  - destruct Hwhy as [[e He]| ->]; [done|].
    cbn [poolMap_of foldl]. rewrite bool_decide_eq_true_2 by done.
    eexists. by rewrite with_redis_same.
Qed.

Lemma SetPoolID_failure_changes_nothing_witness :
  redisClient Double.db_fresh = Some Double.redis_up
  /\ exists e, SetPoolID Double.db_fresh "prices" [] 500
               = Ret (Double.db_fresh, Some e).
Proof.
  split; [reflexivity|].
  apply (SetPoolID_failure_changes_nothing Double.db_fresh Double.redis_up
           "prices" [] 500 eq_refl).
  right. reflexivity.
Defined.

(** Pooling the same children under the same parent a second time
    changes nothing: replaying a record into the index is harmless. *)
Theorem SetPoolID_idempotent db topic children ID db' :
  SetPoolID db topic children ID = Ret (db', None) ->
  SetPoolID db' topic children ID = Ret (db', None).
Proof.
  intros Hset.
  destruct (SetPoolID_success _ _ _ _ _ Hset) as (clnt & Hc & Hf & ->).
  unfold SetPoolID, redis.HSet in *. rewrite Hc, Hf in Hset. cbn.
  destruct (bool_decide (poolMap_of children ID = ∅)); [done|].
  do 2 f_equal. unfold with_redis. cbn. do 3 f_equal.
  rewrite lookup_insert_eq. cbn. rewrite insert_insert_eq.
  f_equal. rewrite (assoc_L (∪)). by rewrite (idemp_L (∪)).
Qed.

Lemma SetPoolID_idempotent_witness :
  exists db',
    SetPoolID Double.db_fresh "prices" Double.children 500 = Ret (db', None)
    /\ SetPoolID db' "prices" Double.children 500 = Ret (db', None).
Proof.
  eexists. split; [reflexivity|].
  apply (SetPoolID_idempotent Double.db_fresh "prices" Double.children 500).
  reflexivity.
Defined.

Lemma SetPoolID_leaves_other_entries_witness :
  exists db',
    SetPoolID Double.db_fresh "prices" Double.children 500 = Ret (db', None)
    /\ pool_entry db' "volumes" "100.1" = pool_entry Double.db_fresh "volumes" "100.1".
Proof.
  eexists. split; [reflexivity|].
  apply (SetPoolID_leaves_other_entries Double.db_fresh "prices"
           Double.children 500 _ "volumes" "100.1" eq_refl).
  left. discriminate.
Defined.

Lemma GetPoolsParentID_of_entry db db' topic c :
  redisClient db <> None -> redisClient db' <> None ->
  (forall clnt, redisClient db = Some clnt -> redis.fault clnt = None) ->
  (forall clnt, redisClient db' = Some clnt -> redis.fault clnt = None) ->
  pool_entry db' topic c = pool_entry db topic c ->
  GetPoolsParentID db' c topic = GetPoolsParentID db c topic.
Proof.
  unfold pool_entry, GetPoolsParentID, redis.HGet.
  destruct (redisClient db) as [r|], (redisClient db') as [r'|]; try done.
  intros _ _ Hf Hf' Hentry. rewrite (Hf r), (Hf' r') by done.
  cbn in Hentry. cbv zeta. by rewrite Hentry.
Qed.

(** The last pooling wins, child by child: after two successful
    poolings under one topic, a child of the second list has the second
    parent, and a child of the first list that is not in the second one
    keeps the first parent. *)
Theorem SetPoolID_twice db topic children1 ID1 db1 children2 ID2 db2 :
  in_int64 ID1 -> in_int64 ID2 ->
  SetPoolID db topic children1 ID1 = Ret (db1, None) ->
  SetPoolID db1 topic children2 ID2 = Ret (db2, None) ->
  forall c,
    (c ∈ children2 -> GetPoolsParentID db2 c topic = Ret (ID2, None))
    /\ (c ∈ children1 -> c ∉ children2 ->
        GetPoolsParentID db2 c topic = Ret (ID1, None)).
Proof.
  intros H1 H2 Hset1 Hset2 c. split.
  - intros Hin. by eapply GetPoolsParentID_after_SetPoolID.
  - intros Hin1 Hout2.
    rewrite <- (GetPoolsParentID_after_SetPoolID _ _ _ _ _ c H1 Hset1 Hin1).
    destruct (SetPoolID_success _ _ _ _ _ Hset1) as (r & _ & _ & Hdb1).
    destruct (SetPoolID_success _ _ _ _ _ Hset2) as (r1 & Hr1 & Hf1 & Hdb2).
    apply GetPoolsParentID_of_entry.
    + by rewrite Hr1.
    + by rewrite Hdb2.
    + intros clnt Hclnt. congruence.
    + intros clnt. rewrite Hdb2. cbn. by intros [= <-].
    + by eapply pool_entry_other_child.
Qed.

Lemma SetPoolID_twice_witness :
  in_int64 500 /\ in_int64 600
  /\ exists db1 db2,
      SetPoolID Double.db_fresh "prices" Double.children 500 = Ret (db1, None)
      /\ SetPoolID db1 "prices" ["100.1"; "200.0"] 600 = Ret (db2, None)
      /\ GetPoolsParentID db2 "100.1" "prices" = Ret (600, None)
      /\ GetPoolsParentID db2 "100.0" "prices" = Ret (500, None).
Proof.
  assert (in_int64 500) as H1 by (unfold in_int64, min_signed, max_signed; lia).
  assert (in_int64 600) as H2 by (unfold in_int64, min_signed, max_signed; lia).
  split; [exact H1|]. split; [exact H2|].
  eexists _, _. split; [reflexivity|]. split; [reflexivity|].
  pose proof (SetPoolID_twice Double.db_fresh "prices" Double.children 500 _
                ["100.1"; "200.0"] 600 _ H1 H2 eq_refl eq_refl) as Htwice.
  split.
  - apply (Htwice "100.1"). repeat constructor.
  - apply (Htwice "100.0"); [repeat constructor|].
    intros Hin. repeat (apply elem_of_cons in Hin as [Hin|Hin]; [discriminate|]).
    by apply not_elem_of_nil in Hin.
Defined.



(** ** The model of InfluxDB: order of the rows, effect of a write *)





Lemma same_series_spec p q :
  influx.same_series p q = true <->
  influx.name p = influx.name q /\ influx.tags p = influx.tags q
  /\ influx.ptime p = influx.ptime q.
Proof.
  unfold influx.same_series.
  rewrite !andb_true_iff, !bool_decide_eq_true, Z.eqb_eq. tauto.
Qed.

(** Whether a row matches a query is decided by its measurement, its
    tags and its time. *)
Lemma matches_same_series q p r :
  influx.same_series p r = true -> influx.matches q p = influx.matches q r.
Proof.
  intros (Hn & Ht & Hp)%same_series_spec. unfold influx.matches.
  rewrite Hn. f_equal.
  induction (influx.where_ q) as [|c cs IH]; [done|].
  cbn [forallb]. rewrite IH. f_equal.
  destruct c; cbn; by rewrite ?Ht, ?Hp.
Qed.

Lemma upsert_Forall (P : influx.Point -> Prop) p rows :
  P p ->
  (forall q, P q -> influx.same_series p q = true -> P (merged p q)) ->
  Forall P rows -> Forall P (influx.upsert p rows).
Proof.
  intros Hp Hmerge. induction 1 as [|q rows Hq Hrows IH]; cbn [influx.upsert].
  - by repeat constructor.
  - destruct (influx.same_series p q) eqn:Hs.
    + constructor; [by apply Hmerge|done].
    + by constructor.
Qed.

Lemma write_all_Forall (P : influx.Point -> Prop) batch : forall rows,
  Forall (fun p => P p /\ forall q, P q -> influx.same_series p q = true ->
                                    P (merged p q)) batch ->
  Forall P rows -> Forall P (influx.write_all batch rows).
Proof.
  unfold influx.write_all.
  induction batch as [|p batch IH]; intros rows Hbatch Hrows; [done|].
  inversion Hbatch as [|? ? [Hp Hmerge] Hrest]; subst. cbn [foldl].
  apply IH; [done|]. by apply upsert_Forall.
Qed.


(** Rows that match a query keep carrying a value in a column through a
    write whose matching points carry it. *)
Lemma write_all_column q k v batch rows :
  (forall p, p ∈ batch -> influx.matches q p = true ->
             influx.fields p !! k = Some v) ->
  (forall r, r ∈ rows -> influx.matches q r = true ->
             influx.fields r !! k = Some v) ->
  forall r, r ∈ influx.write_all batch rows -> influx.matches q r = true ->
            influx.fields r !! k = Some v.
Proof.
  intros Hbatch Hrows.
  set (P := fun r : influx.Point =>
              influx.matches q r = true -> influx.fields r !! k = Some v).
  assert (Forall P (influx.write_all batch rows)) as Hall.
  { apply write_all_Forall.
    - apply Forall_forall. intros p Hp. split; [exact (Hbatch p Hp)|].
      intros r Hr Hs Hm.
      assert (influx.matches q p = true) as Hmp.
      { rewrite (matches_same_series q p r Hs).
        rewrite <- Hm. unfold influx.matches, merged. reflexivity. }
      cbn. apply lookup_union_Some_l. by apply Hbatch.
    - apply Forall_forall. exact Hrows. }
  intros r Hr. by apply (proj1 (Forall_forall P _) Hall).
Qed.

(** ** Batch buffer: appends, threshold, growth *)

Section batch_buffer_more.
Context `{Ext : Externals}.

(** Below the threshold an append only touches the batch and the
    counter: the store is not contacted (no client is needed), nothing
    is written.  At the threshold, with the store refusing the write,
    the flush forced by the append throws away the whole batch, the
    point just appended included, and the counter keeps its new value. *)
Theorem addAuditPoint_threshold db bp pt :
  influxBatchPoints db = Some bp ->
  min_signed <= influxPointsInBatch db < max_signed ->
  (influxPointsInBatch db + 1 < influxMaxPointsInBatch ->
   addAuditPoint db pt
   = Ret (with_count (with_batch db (Some (bp ++ [pt])%list))
            (influxPointsInBatch db + 1)))
  /\ (influxMaxPointsInBatch <= influxPointsInBatch db + 1 ->
      forall clnt e, influxClient db = Some clnt -> influx.fault clnt = Some e ->
      addAuditPoint db pt
      = Ret (with_count (with_batch db (Some [])) (influxPointsInBatch db + 1))).
Proof.
  intros Hb Hrange. unfold addAuditPoint. rewrite Hb.
  cbn [influxPointsInBatch with_batch with_count].
  rewrite wrap64_id by (unfold in_int64; lia). split.
  - intros Hlt. by rewrite (proj2 (Z.leb_gt _ _)) by lia.
  - intros Hge clnt e Hc He. rewrite (proj2 (Z.leb_le _ _)) by lia.
    by erewrite WriteAuditBatchInflux_failure.
Qed.


(** An append followed by a flush, against a store that answers: the
    point joins the batch, the counter is back at 0, Redis is not
    touched, and the rows are the old ones with the batch written over
    them (twice when the append itself already flushed). *)
Lemma add_then_write db clnt bp pt :
  influxClient db = Some clnt -> influx.fault clnt = None ->
  influxBatchPoints db = Some bp ->
  exists db' rows',
    (d ← addAuditPoint db pt; WriteAuditBatchInflux d) = Ret (db', None)
    /\ influxClient db' = Some {| influx.fault := None; influx.points := rows' |}
    /\ influxBatchPoints db' = Some (bp ++ [pt])%list
    /\ influxPointsInBatch db' = 0
    /\ redisClient db' = redisClient db
    /\ (rows' = influx.write_all (bp ++ [pt]) (influx.points clnt)
        \/ rows' = influx.write_all (bp ++ [pt])
                     (influx.write_all (bp ++ [pt]) (influx.points clnt))).
Proof.
  intros Hc Hf Hb. unfold addAuditPoint. rewrite Hb.
  match goal with |- context [WriteAuditBatchInflux ?d] => set (d1 := d) end.
  destruct (influxMaxPointsInBatch <=? influxPointsInBatch d1).
  - rewrite (WriteAuditBatchInflux_success d1 clnt (bp ++ [pt])) by done.
    cbn [mbind outcome_bind].
    erewrite WriteAuditBatchInflux_success; [|reflexivity..].
    eexists _, _. split; [reflexivity|]. cbn. repeat split. by right.
  - cbn [mbind outcome_bind].
    rewrite (WriteAuditBatchInflux_success d1 clnt (bp ++ [pt])) by done.
    eexists _, _. split; [reflexivity|]. cbn. repeat split. by left.
Qed.

(** A successful flush zeroes the counter and keeps the points: after
    any number of appends, each followed by a flush that the store
    accepts, the batch holds every point appended since it was created,
    in order, and every later flush sends all of them again. *)
Theorem batch_grows_while_store_answers pts : forall db clnt bp,
  influxClient db = Some clnt -> influx.fault clnt = None ->
  influxBatchPoints db = Some bp ->
  exists db',
    appendEach db pts = Ret db'
    /\ influxBatchPoints db' = Some (bp ++ pts)%list
    /\ batch_size db' = batch_size db + Z.of_nat (length pts)
    /\ (pts <> [] -> influxPointsInBatch db' = 0)
    /\ exists clnt', influxClient db' = Some clnt' /\ influx.fault clnt' = None.
Proof.
  induction pts as [|pt pts IH]; intros db clnt bp Hc Hf Hb.
  - exists db. cbn. rewrite app_nil_r. repeat split; try done; [lia|by exists clnt].
  - destruct (add_then_write db clnt bp pt Hc Hf Hb)
      as (d & rows & Hrun & Hc' & Hb' & Hn & _ & _).
    destruct (IH d _ _ Hc' eq_refl Hb') as (db' & Hrest & Hbatch & Hsize & Hcount & Hup).
    exists db'. cbn [appendEach].
    destruct (addAuditPoint db pt) as [d0|]; [|done].
    cbn [mbind outcome_bind] in Hrun |- *. rewrite Hrun. cbn [mbind outcome_bind].
    split; [exact Hrest|]. rewrite <- app_assoc in Hbatch.
    split; [exact Hbatch|]. split.
    + rewrite Hsize. unfold batch_size. rewrite Hb, Hb'.
      rewrite length_app. cbn [length]. lia.
    + split; [|exact Hup]. intros _. destruct pts as [|p pts'].
      * cbn in Hrest. by injection Hrest as <-.
      * by apply Hcount.
Qed.


End batch_buffer_more.

Lemma addAuditPoint_threshold_witness :
  influxBatchPoints Double.db_down = Some [Double.pt0]
  /\ min_signed <= influxPointsInBatch Double.db_down < max_signed
  /\ influxMaxPointsInBatch <= influxPointsInBatch Double.db_down + 1
  /\ addAuditPoint Double.db_down Double.pt1
     = Ret (with_count (with_batch Double.db_down (Some [])) 3).
Proof.
  split; [reflexivity|].
  assert (min_signed <= influxPointsInBatch Double.db_down < max_signed) as Hr
    by (unfold min_signed, max_signed; cbn; lia).
  split; [exact Hr|].
  assert (influxMaxPointsInBatch <= influxPointsInBatch Double.db_down + 1) as Hm
    by (cbn; lia).
  split; [exact Hm|].
  apply (proj2 (addAuditPoint_threshold (Ext := Double.externals)
                  Double.db_down [Double.pt0] Double.pt1 eq_refl Hr)
           Hm Double.down Double.refused eq_refl eq_refl).
Defined.

Lemma batch_grows_while_store_answers_witness :
  influxClient Double.db_fresh = Some Double.up
  /\ influx.fault Double.up = None
  /\ influxBatchPoints Double.db_fresh = Some []
  /\ exists db',
      appendEach Double.db_fresh [Double.pt0; Double.pt1] = Ret db'
      /\ influxBatchPoints db' = Some [Double.pt0; Double.pt1]
      /\ influxPointsInBatch db' = 0.
Proof.
  split; [reflexivity|]. split; [reflexivity|]. split; [reflexivity|].
  destruct (batch_grows_while_store_answers (Ext := Double.externals)
              [Double.pt0; Double.pt1] Double.db_fresh Double.up []
              eq_refl eq_refl eq_refl)
    as (db' & Hrun & Hbatch & _ & Hcount & _).
  exists db'. split; [exact Hrun|]. split; [exact Hbatch|].
  apply Hcount. discriminate.
Defined.

(** ** Writing a tree and reading it back *)









Section write_then_read.
Context `{Ext : Externals}.


End write_then_read.

Section tree_round_trips.
Context `{Ext : Externals}.





End tree_round_trips.



Section daily_round_trips.
Context `{Ext : Externals}.

Lemma SetPoolID_keeps_influx db topic children ID db1 e :
  SetPoolID db topic children ID = Ret (db1, e) ->
  influxClient db1 = influxClient db
  /\ influxBatchPoints db1 = influxBatchPoints db
  /\ influxPointsInBatch db1 = influxPointsInBatch db.
Proof.
  unfold SetPoolID. destruct (redisClient db) as [r|]; [|done].
  destruct (redis.HSet r _ _) as [r' [e'|]]; by intros [= <- _].
Qed.




End daily_round_trips.



(** ** Range queries and latest record *)











Section earliest_after.
Context `{Ext : Externals}.


End earliest_after.


(** ** Inclusion search: what it answers and where it stops *)

Section inclusion_search_more.
Context `{Ext : Externals}.



End inclusion_search_more.



(** ** Daily trees: Redis and InfluxDB side by side *)

Section daily_tree_effects.
Context `{Ext : Externals}.

Lemma WriteAuditBatchInflux_with_redis db r :
  WriteAuditBatchInflux (with_redis db r)
  = match WriteAuditBatchInflux db with
    | Ret (d, e) => Ret (with_redis d r, e)
    | Crash => Crash
    end.
Proof.
  unfold WriteAuditBatchInflux, influx.Write. cbn.
  destruct (influxClient db) as [srv|]; [|done].
  destruct (influxBatchPoints db) as [bp|]; [|done].
  by destruct (influx.fault srv).
Qed.

Lemma addAuditPoint_with_redis db r pt :
  addAuditPoint (with_redis db r) pt
  = match addAuditPoint db pt with
    | Ret d => Ret (with_redis d r)
    | Crash => Crash
    end.
Proof.
  unfold addAuditPoint. cbn.
  destruct (influxBatchPoints db) as [bp|]; [|done].
  match goal with |- context [WriteAuditBatchInflux (with_count ?d ?n)] =>
    change (with_count d n)
      with (with_redis
              (with_count (with_batch db (Some (bp ++ [pt])%list))
                 (wrap64 (influxPointsInBatch db + 1))) r)
  end.
  cbn [influxPointsInBatch with_count with_batch with_redis].
  destruct (influxMaxPointsInBatch <=? _); [|done].
  rewrite WriteAuditBatchInflux_with_redis.
  by destruct (WriteAuditBatchInflux _) as [[d e]|].
Qed.

(** At a level other than ["2"] a daily tree is written without Redis:
    the outcome does not depend on the Redis client, which may be
    missing, and the client is handed back as it was. *)
Theorem SetDailyTreeInflux_other_levels
    db r tree ID topic level children lastTimestamp now :
  level <> "2" ->
  SetDailyTreeInflux (with_redis db r) tree ID topic level children
    lastTimestamp now
  = match SetDailyTreeInflux db tree ID topic level children lastTimestamp now with
    | Ret (d, e) => Ret (with_redis d r, e)
    | Crash => Crash
    end.
Proof.
  intros Hlevel. unfold SetDailyTreeInflux.
  destruct (json_Marshal_tree tree) as [marshTree [e|]]; [done|].
  rewrite bool_decide_eq_false_2 by done. cbn [mbind outcome_bind].
  destruct (json_Marshal_strings children) as [childrenData [e|]]; [done|].
  destruct (NewPoint _ _ _ _) as [pt [e|]]; cbn [mbind outcome_bind].
  - apply WriteAuditBatchInflux_with_redis.
  - rewrite addAuditPoint_with_redis.
    destruct (addAuditPoint db pt) as [d|]; [|done].
    cbn [mbind outcome_bind]. apply WriteAuditBatchInflux_with_redis.
Qed.

Lemma SetDailyTreeInflux_redis_any
    db tree ID topic children lastTimestamp now marshTree db1 e1 db' err :
  json_Marshal_tree tree = (marshTree, None) ->
  SetPoolID db topic children ID = Ret (db1, e1) ->
  SetDailyTreeInflux db tree ID topic "2" children lastTimestamp now
  = Ret (db', err) ->
  redisClient db' = redisClient db1.
Proof.
  intros Htree Hset Hdaily. unfold SetDailyTreeInflux in Hdaily.
  rewrite Htree in Hdaily.
  rewrite bool_decide_eq_true_2 in Hdaily by done.
  rewrite Hset in Hdaily. cbn [mbind outcome_bind] in Hdaily.
  destruct (json_Marshal_strings children) as [childrenData [e|]];
    [by injection Hdaily as <- _|].
  destruct (NewPoint _ _ _ _) as [pt [e|]].
  - cbn [mbind outcome_bind] in Hdaily.
    apply (WriteAuditBatchInflux_redis _ _ _ Hdaily).
  - destruct (addAuditPoint db1 pt) as [d2|] eqn:Hadd; [|done].
    cbn [mbind outcome_bind] in Hdaily.
    rewrite (WriteAuditBatchInflux_redis _ _ _ Hdaily).
    apply (addAuditPoint_redis _ _ _ Hadd).
Qed.

(** The index is written first and is not taken back.  At level ["2"],
    once the tree is serialised and [SetPoolID] has succeeded, every
    child has its parent in the index when [SetDailyTreeInflux] returns,
    also when it returns the error of a failed write to InfluxDB. *)
Theorem SetDailyTreeInflux_index_survives_write_error
    db tree ID topic children lastTimestamp now marshTree db1 db' err :
  in_int64 ID ->
  json_Marshal_tree tree = (marshTree, None) ->
  SetPoolID db topic children ID = Ret (db1, None) ->
  SetDailyTreeInflux db tree ID topic "2" children lastTimestamp now
  = Ret (db', err) ->
  forall c, c ∈ children -> GetPoolsParentID db' c topic = Ret (ID, None).
Proof.
  intros HID Htree Hset Hdaily c Hin.
  rewrite (GetPoolsParentID_redis db1 db').
  - by eapply GetPoolsParentID_after_SetPoolID.
  - by eapply SetDailyTreeInflux_redis_any.
Qed.

End daily_tree_effects.

Lemma SetDailyTreeInflux_other_levels_witness :
  "1" <> "2"
  /\ exists db',
      SetDailyTreeInflux (with_redis Double.db_fresh None) Double.sampleTree
        500 "" "1" Double.children Double.T0 (Double.T0 + 1)
      = Ret (with_redis db' None, None)
      /\ SetDailyTreeInflux Double.db_fresh Double.sampleTree
           500 "" "1" Double.children Double.T0 (Double.T0 + 1)
         = Ret (db', None).
Proof.
  split; [discriminate|].
  eexists. split; [|vm_compute; reflexivity].
  rewrite (SetDailyTreeInflux_other_levels (Ext := Double.externals)
             Double.db_fresh None Double.sampleTree
             500 "" "1" Double.children Double.T0
             (Double.T0 + 1)) by discriminate.
  vm_compute. reflexivity.
Defined.

(** Redis answers, InfluxDB refuses: the call fails, the parents are
    recorded all the same. *)
Lemma SetDailyTreeInflux_index_survives_write_error_witness :
  in_int64 500
  /\ exists db1 db',
      SetPoolID (with_influx Double.db_fresh (Some Double.down)) "prices"
        Double.children 500 = Ret (db1, None)
      /\ SetDailyTreeInflux (with_influx Double.db_fresh (Some Double.down))
           Double.sampleTree 500 "prices" "2" Double.children
           Double.T0 (Double.T0 + 1)
         = Ret (db', Some Double.refused)
      /\ GetPoolsParentID db' "100.1" "prices" = Ret (500, None).
Proof.
  assert (in_int64 500) as HID by (unfold in_int64, min_signed, max_signed; lia).
  split; [exact HID|].
  eexists _, _. split; [reflexivity|]. split; [vm_compute; reflexivity|].
  refine (SetDailyTreeInflux_index_survives_write_error (Ext := Double.externals)
            (with_influx Double.db_fresh (Some Double.down)) Double.sampleTree
            500 "prices" Double.children Double.T0 (Double.T0 + 1)
            "{sample}" _ _ (Some Double.refused) HID eq_refl eq_refl _
            "100.1" _).
  - vm_compute. reflexivity.
  - repeat constructor.
Defined.

(** ** Storage trees: a refused point, identifiers, reading *)

Section storage_tree_more.
Context `{Ext : Externals}.

(** A point that the client refuses to build is only logged: the call
    goes on to flush the batch and, the store answering, returns no
    error, although the tree is in no batch and the store holds what
    the pending batch alone puts there. *)
Theorem SetStorageTreeInflux_point_refused
    db clnt bp tree topic influxTimeID firstDate0
    bucketsWithID firstDate lastDate treeWithID marshTree merr :
  influxClient db = Some clnt -> influx.fault clnt = None ->
  influxBatchPoints db = Some bp ->
  bucketsLoop influxTimeID (Leafs tree) 0 [] firstDate0 time.zero
  = Ret (bucketsWithID, firstDate, lastDate) ->
  NewTree bucketsWithID = (treeWithID, None) ->
  json_Marshal_tree treeWithID = (marshTree, merr) ->
  NewPoint_valid influxDBStorageTable (storageTags topic firstDate lastDate)
    {[ "value" := marshTree ]} influxTimeID = false ->
  exists db',
    SetStorageTreeInflux db tree topic influxTimeID firstDate0 = Ret (db', None)
    /\ influxBatchPoints db' = Some bp
    /\ influxClient db'
       = Some {| influx.fault := None;
                 influx.points := influx.write_all bp (influx.points clnt) |}.
Proof.
  intros Hc Hf Hb Hloop Htree Hjson Hvalid.
  unfold SetStorageTreeInflux. rewrite Hloop. cbn [mbind outcome_bind].
  unfold storeBuckets. rewrite Htree, Hjson. unfold NewPoint. rewrite Hvalid.
  cbn [mbind outcome_bind].
  rewrite (WriteAuditBatchInflux_success db clnt bp) by done.
  eexists. split; [reflexivity|]. by cbn.
Qed.

End storage_tree_more.

Lemma SetStorageTreeInflux_point_refused_witness :
  NewPoint_valid (Externals := Double.externals_picky) influxDBStorageTable
    (storageTags "prices" (-3000000001) (-1000000001))
    {[ "value" := "" ]} (-1) = false
  /\ exists db',
      SetStorageTreeInflux (Ext := Double.externals_picky) Double.db_fresh
        {| merkleRoot := "root";
           Leafs := [Double.bucket "p0" (-3000000001);
                     Double.bucket "p1" (-1000000001)] |}
        "prices" (-1) 0 = Ret (db', None)
      /\ influxBatchPoints db' = Some []
      /\ influxClient db' = Some Double.up.
Proof.
  split; [reflexivity|].
  destruct (SetStorageTreeInflux_point_refused (Ext := Double.externals_picky)
              Double.db_fresh Double.up []
              {| merkleRoot := "root";
                 Leafs := [Double.bucket "p0" (-3000000001);
                           Double.bucket "p1" (-1000000001)] |}
              "prices" (-1) 0 _ _ _ _ "" _
              eq_refl eq_refl eq_refl eq_refl eq_refl eq_refl eq_refl)
    as (db' & Hrun & Hbatch & Hclient).
  exists db'. split; [exact Hrun|]. split; [exact Hbatch|exact Hclient].
Defined.

Lemma decimal_split s1 : forall s2 t1 t2,
  decimal_chars s1 = true -> decimal_chars s2 = true ->
  s1 +:+ String "." t1 = s2 +:+ String "." t2 ->
  s1 = s2 /\ t1 = t2.
Proof.
  induction s1 as [|c s1 IH]; intros [|d s2] t1 t2 H1 H2 Heq.
  - by injection Heq as <-.
  - change ("" +:+ String "." t1) with (String "." t1) in Heq.
    change (String d s2 +:+ String "." t2)
      with (String d (s2 +:+ String "." t2)) in Heq.
    injection Heq as <- _. by vm_compute in H2.
  - change ("" +:+ String "." t2) with (String "." t2) in Heq.
    change (String c s1 +:+ String "." t1)
      with (String c (s1 +:+ String "." t1)) in Heq.
    injection Heq as -> _. by vm_compute in H1.
  - change (String c s1 +:+ String "." t1)
      with (String c (s1 +:+ String "." t1)) in Heq.
    change (String d s2 +:+ String "." t2)
      with (String d (s2 +:+ String "." t2)) in Heq.
    injection Heq as -> Heq. cbn [decimal_chars] in H1, H2.
    apply andb_prop in H1 as [_ H1]. apply andb_prop in H2 as [_ H2].
    destruct (IH s2 t1 t2 H1 H2 Heq) as [-> ->]. done.
Qed.

(** A bucket identifier names one build time and one position: two
    sealed buckets with the same identifier were sealed at the same
    nanosecond and stand at the same index (indices below [2^63]). *)
Theorem bucket_identifier_injective t1 t2 (i j : nat) leaf1 leaf2 b1 b2 :
  Z.of_nat i <= max_signed -> Z.of_nat j <= max_signed ->
  sealed t1 i leaf1 = CStorageBucket b1 ->
  sealed t2 j leaf2 = CStorageBucket b2 ->
  ID b1 = ID b2 ->
  time.UnixNano t1 = time.UnixNano t2 /\ i = j.
Proof.
  intros Hi Hj Hb1 Hb2 Heq. unfold sealed in Hb1, Hb2.
  destruct (C leaf1), (C leaf2); try done.
  injection Hb1 as <-. injection Hb2 as <-. cbn [ID] in Heq.
  apply decimal_split in Heq as [Ht Hidx]; [|apply decimal_FormatInt..].
  split.
  - apply FormatInt_inj in Ht; [done|apply wrap64_range..].
  - apply FormatInt_inj in Hidx;
      unfold in_int64, min_signed, max_signed in *; lia.
Qed.

Lemma bucket_identifier_injective_witness :
  Z.of_nat 1 <= max_signed
  /\ sealed Double.T0 1 (Double.bucket "p1" 0)
     = CStorageBucket {| ID := "1614852000000000000.1"; Timestamp := 0;
                         Payload := "p1" |}
  /\ sealed (Double.T0 + 2 ^ 64) 1 (Double.bucket "q" 5)
     = CStorageBucket {| ID := "1614852000000000000.1"; Timestamp := 5;
                         Payload := "q" |}
  /\ time.UnixNano Double.T0 = time.UnixNano (Double.T0 + 2 ^ 64)
  /\ 1%nat = 1%nat.
Proof.
  assert (Z.of_nat 1 <= max_signed) as Hb by (unfold max_signed; cbn; lia).
  split; [exact Hb|]. split; [reflexivity|]. split; [reflexivity|].
  apply (bucket_identifier_injective Double.T0 (Double.T0 + 2 ^ 64) 1 1
           (Double.bucket "p1" 0) (Double.bucket "q" 5) _ _ Hb Hb
           eq_refl eq_refl eq_refl).
Defined.

Section read_storage_tree_facts.
Variable ReadContent : StorageBucket -> list (list Byte.byte) * option error.

Lemma readLeafs_all leafs : forall content,
  forallb (readable ReadContent) leafs = true ->
  readLeafs ReadContent leafs content
  = Ret ((content ++ (content_of ReadContent <$> leafs))%list, None).
Proof.
  induction leafs as [|leaf leafs IH]; intros content Hall.
  - cbn. by rewrite app_nil_r.
  - cbn in Hall. apply andb_prop in Hall as [Hleaf Hall].
    unfold readable in Hleaf. cbn [readLeafs fmap list_fmap].
    assert (content_of ReadContent leaf
            = match C leaf with
              | CStorageBucket b => (ReadContent b).1
              | COther _ => []
              end) as Hcontent by reflexivity.
    destruct (C leaf) as [b|]; [|done].
    apply bool_decide_eq_true_1 in Hleaf.
    destruct (ReadContent b) as [data err]. cbn in Hleaf, Hcontent. subst err.
    rewrite IH by done. rewrite Hcontent. by rewrite <- app_assoc.
Qed.

(** [ReadStorageTree] returns the data points of the buckets in the
    order of the leaves.  At the first bucket that cannot be read it
    stops and returns that bucket's error together with the contents of
    the buckets before it; at a leaf that holds no storage bucket it
    panics. *)
Theorem ReadStorageTree_contents storageTree :
  (forallb (readable ReadContent) (Leafs storageTree) = true ->
   ReadStorageTree ReadContent storageTree
   = Ret (content_of ReadContent <$> Leafs storageTree, None))
  /\ (forall pre leaf rest,
        Leafs storageTree = (pre ++ leaf :: rest)%list ->
        forallb (readable ReadContent) pre = true ->
        readable ReadContent leaf = false ->
        ReadStorageTree ReadContent storageTree
        = match C leaf with
          | CStorageBucket b =>
              match (ReadContent b).2 with
              | Some e => Ret (content_of ReadContent <$> pre, Some e)
              | None => Crash
              end
          | COther _ => Crash
          end).
Proof.
  unfold ReadStorageTree. split.
  - intros Hall. by rewrite readLeafs_all.
  - intros pre leaf rest -> Hpre Hleaf.
    assert (forall content,
              readLeafs ReadContent (pre ++ leaf :: rest) content
              = readLeafs ReadContent (leaf :: rest)
                  (content ++ (content_of ReadContent <$> pre))%list) as Hskip.
    { clear Hleaf. induction pre as [|p pre IH]; intros content.
      - cbn. by rewrite app_nil_r.
      - cbn in Hpre. apply andb_prop in Hpre as [Hp Hpre].
        unfold readable in Hp. cbn [app readLeafs fmap list_fmap].
        assert (content_of ReadContent p
                = match C p with
                  | CStorageBucket b => (ReadContent b).1
                  | COther _ => []
                  end) as Hcontent by reflexivity.
        destruct (C p) as [b|]; [|done].
        apply bool_decide_eq_true_1 in Hp.
        destruct (ReadContent b) as [data err]. cbn in Hp, Hcontent. subst err.
        rewrite IH by done. rewrite Hcontent. by rewrite <- app_assoc. }
    rewrite Hskip. cbn [app readLeafs]. unfold readable in Hleaf.
    destruct (C leaf) as [b|]; [|done].
    apply bool_decide_eq_false_1 in Hleaf.
    destruct (ReadContent b) as [data [e|]]; [done|]. by cbn in Hleaf.
Qed.

End read_storage_tree_facts.

Lemma ReadStorageTree_contents_witness :
  let tree := {| merkleRoot := "root";
                 Leafs := [Double.bucket "p0" 0; Double.bucket "bad" 1;
                           Double.bucket "p2" 2] |} in
  forallb (readable Double.ReadContent) (Leafs Double.sampleTree) = true
  /\ ReadStorageTree Double.ReadContent Double.sampleTree
     = Ret ([[list_byte_of_string "p0"]; [list_byte_of_string "p1"];
             [list_byte_of_string "p2"]], None)
  /\ ReadStorageTree Double.ReadContent tree
     = Ret ([[list_byte_of_string "p0"]],
            Some (external "merkletree" "unreadable bucket")).
Proof.
  intros tree. split; [reflexivity|]. split.
  - apply (proj1 (ReadStorageTree_contents Double.ReadContent Double.sampleTree)).
    reflexivity.
  - apply (proj2 (ReadStorageTree_contents Double.ReadContent tree)
             [Double.bucket "p0" 0] (Double.bucket "bad" 1)
             [Double.bucket "p2" 2]); reflexivity.
Defined.

(** ** A store without InfluxDB *)

Section no_influx.
Context `{Ext : Externals}.

(** On a store built without InfluxDB ([NewRedisAuditStore],
    [NewAuditStoreWithoutInflux]) there is no client and no batch:
    [FlushAuditBatch] does nothing and returns no error; a write, an
    append and every query panic; and the setters never succeed (they
    return an error of their own before the write, or panic). *)
Theorem store_without_influx withRedis r ci :
  let db := NewAuditStoreWithOptions withRedis false r ci in
  FlushAuditBatch db = Ret (db, None)
  /\ WriteAuditBatchInflux db = Crash
  /\ (forall pt, addAuditPoint db pt = Crash)
  /\ (forall topic timeLower, GetStorageTreeInflux db topic timeLower = Crash)
  /\ (forall topic ID, GetStorageTreeByID db topic ID = Crash)
  /\ (forall topic now, GetLastID db topic now = Crash)
  /\ (forall topic level ID, GetDailyTreeByID db topic level ID = Crash)
  /\ (forall tree topic influxTimeID firstDate0 db',
        SetStorageTreeInflux db tree topic influxTimeID firstDate0
        <> Ret (db', None))
  /\ (forall tree ID topic level children lastTimestamp now db',
        SetDailyTreeInflux db tree ID topic level children lastTimestamp now
        <> Ret (db', None)).
Proof.
  intros db. repeat split; try done.
  - intros tree topic influxTimeID firstDate0 db'.
    unfold SetStorageTreeInflux.
    destruct (bucketsLoop _ _ _ _ _ _) as [[[bs fd] ld]|]; [|done].
    cbn [mbind outcome_bind]. unfold storeBuckets.
    destruct (NewTree bs) as [t [e|]]; [done|].
    destruct (json_Marshal_tree t) as [m ?].
    by destruct (NewPoint _ _ _ _) as [pt [e|]].
  - intros tree ID topic level children lastTimestamp now db'.
    unfold SetDailyTreeInflux.
    destruct (json_Marshal_tree tree) as [m [e|]]; [done|].
    assert (forall d, influxClient d = None -> influxBatchPoints d = None ->
              (let '(childrenData, err) := json_Marshal_strings children in
               match err with
               | Some e => Ret (d, Some e)
               | None =>
                   let '(pt, err0) :=
                     NewPoint influxDBMerkleTable (dailyTags topic level ID)
                       (dailyFields m childrenData lastTimestamp) now in
                   d0 ← match err0 with
                        | Some _ => Ret d
                        | None => addAuditPoint d pt
                        end;
                   WriteAuditBatchInflux d0
               end) <> Ret (db', None)) as Hrest.
    { intros d Hc Hb.
      destruct (json_Marshal_strings children) as [cd [e|]]; [done|].
      destruct (NewPoint _ _ _ _) as [pt [e|]]; cbn [mbind outcome_bind].
      - unfold WriteAuditBatchInflux, influx.Write. by rewrite Hc.
      - unfold addAuditPoint. by rewrite Hb. }
    case_bool_decide; cbn [mbind outcome_bind]; [|by apply Hrest].
    destruct (SetPoolID db topic children ID) as [[d e]|] eqn:Hset; [|done].
    cbn [mbind outcome_bind].
    destruct (SetPoolID_keeps_influx _ _ _ _ _ _ Hset) as (Hc & Hb & _).
    by apply Hrest.
Qed.

End no_influx.
